(** * go-yum: synchronising a local package mirror ([repo.go])

    A shallow embedding of [Repo.Sync] and of the functions it is built
    from.  The Go code talks to the file system, to a metadata cache, to a
    download client and to a log; the embedding threads one explicit
    [World] through every call and keeps the collaborators that live
    outside [repo.go] as the fields of an environment class, named as the
    Go code names them. *)

From Stdlib Require Import ZArith Ascii String.
From stdpp Require Import gmap strings list sorting.

Local Open Scope string_scope.
Local Open Scope Z_scope.
Local Open Scope list_scope.

(** ** Paths

    Go strings are byte strings, and so are Rocq's.  [filepath_Base]
    follows [path/filepath.Base] on Unix: an empty path gives ".",
    trailing separators are dropped, what follows the last separator is
    returned, and a path of separators only gives "/". *)

Definition is_sep (c : ascii) : bool := Ascii.eqb c "/"%char.

Fixpoint take_while {A} (f : A → bool) (l : list A) : list A :=
  match l with
  | [] => []
  | x :: l' => if f x then x :: take_while f l' else []
  end.

Fixpoint drop_while {A} (f : A → bool) (l : list A) : list A :=
  match l with
  | [] => []
  | x :: l' => if f x then drop_while f l' else l
  end.

Definition strip_trailing_sep (l : list ascii) : list ascii :=
  rev (drop_while is_sep (rev l)).

Definition last_element (l : list ascii) : list ascii :=
  rev (take_while (λ c, negb (is_sep c)) (rev l)).

Definition filepath_Base (path : string) : string :=
  match path with
  | EmptyString => "."
  | _ =>
    match last_element (strip_trailing_sep (list_ascii_of_string path)) with
    | [] => "/"
    | p => string_of_list_ascii p
    end
  end.

(** A path below a directory is kept as the pair of the directory and of
    the element joined to it: [filepath_Join dir elem] names the entry
    [elem] of [dir].  Of the lexical cleaning of [filepath.Join] only the
    part the calls of [Sync] exercise is kept, the removal of the
    separators that start the element ("/repodata", "/*.rpm").  An
    element ".", ".." or "/", which [filepath.Join] resolves to the
    directory itself or to its parent, is not covered: the pair is then a
    name for the joined path and not an entry of the directory. *)

Record Path := mkPath { p_dir : string; p_elem : string }.

#[global] Instance Path_eq_dec : EqDecision Path.
Proof. solve_decision. Defined.

Definition filepath_Join (dir elem : string) : Path :=
  mkPath dir (string_of_list_ascii (drop_while is_sep (list_ascii_of_string elem))).

(** ** Errors

    The error values the program makes itself ([fmt.Errorf] with its
    arguments, the sentinel [ErrChecksumMismatch]), those of the Go
    library calls that are modelled, and [ErrOther] for whatever a
    collaborator reports. *)

Inductive Error :=
| ErrOther (msg : string)
| ErrNotExist
| ErrExist
| ErrPermission
| ErrChecksumMismatch
| ErrInvalidByte (c : ascii)
| ErrLength
| ErrCacheMetadata (repo : string) (cause : Error)
| ErrCreatePath (packagedir : string) (cause : Error)
| ErrReadingPackages
| ErrPrimaryDb (cause : Error).

#[global] Instance Error_eq_dec : EqDecision Error.
Proof. solve_decision. Defined.

Definition os_IsExist (err : Error) : bool :=
  match err with ErrExist => true | _ => false end.

(** ** [encoding/hex.DecodeString]

    Pairs of hexadecimal digits, left to right; the first byte that is
    no digit is reported, and an odd length is reported once the digits
    before the last one were accepted. *)

Definition fromHexChar (c : ascii) : option Z :=
  let n := Z.of_nat (nat_of_ascii c) in
  if (48 <=? n) && (n <=? 57) then Some (n - 48)
  else if (97 <=? n) && (n <=? 102) then Some (n - 97 + 10)
  else if (65 <=? n) && (n <=? 70) then Some (n - 65 + 10)
  else None.

Fixpoint hex_Decode (src : list ascii) : Error + list Z :=
  match src with
  | [] => inr []
  | [p] =>
    match fromHexChar p with
    | None => inl (ErrInvalidByte p)
    | Some _ => inl ErrLength
    end
  | p :: q :: rest =>
    match fromHexChar p with
    | None => inl (ErrInvalidByte p)
    | Some a =>
      match fromHexChar q with
      | None => inl (ErrInvalidByte q)
      | Some b =>
        match hex_Decode rest with
        | inl err => inl err
        | inr bs => inr (Z.lor (Z.shiftl a 4) b :: bs)
        end
      end
    end
  end.

Definition hex_DecodeString (s : string) : Error + list Z :=
  hex_Decode (list_ascii_of_string s).

(** ** Data

    [Repo] is the struct of [repo.go]; the two dates are kept as seconds.
    [PackageEntry] is declared elsewhere in the repository: the record
    holds what its four accessors used by [Sync] return, [pkg_Checksum]
    being the [(string, error)] pair of [p.Checksum()]. *)

Record Repo := {
  ID : string;
  Name : string;
  Architecture : string;
  BaseURL : string;
  CachePath : string;
  Checksum : string;
  DeleteRemoved : bool;
  GPGCheck : bool;
  GPGKey : string;
  Groupfile : string;
  IncludeSources : bool;
  LocalPath : string;
  MirrorURL : string;
  NewOnly : bool;
  MaxDate : Z;
  MinDate : Z;
  YumfileLineNo : Z;
  YumfilePath : string;
}.

Definition Repo_String (c : Repo) : string := ID c.

Record PackageEntry := {
  LocationHref : string;
  PackageSize : Z;
  pkg_Checksum : Error + string;
  ChecksumType : string;
}.

#[global] Instance PackageEntry_eq_dec : EqDecision PackageEntry.
Proof. solve_decision. Defined.

(** A file of the modelled file system: its bytes, whether it can be
    opened for reading, and whether it resists removal. *)
Record File := {
  f_data : string;
  f_readable : bool;
  f_immutable : bool;
}.

Definition File_Size (f : File) : Z := Z.of_nat (String.length (f_data f)).

(** What [os.FileInfo] gives for one directory entry. *)
Record FileInfo := { fi_Name : string; fi_Size : Z }.

#[global] Instance FileInfo_eq_dec : EqDecision FileInfo.
Proof. solve_decision. Defined.

(** The file system: directory path to entry name to file. *)
Abbreviation FS := (gmap string (gmap string File)).

Definition fs_lookup (fs : FS) (path : Path) : option File :=
  fs !! p_dir path ≫= λ entries, entries !! p_elem path.

(** Handles of the collaborators; nothing in [Sync] looks inside them. *)
Record KeyRing := { kr_id : string }.
Record Cache := { cache_path : string }.
Record RepoCache := { rc_id : string }.
Record PrimaryDb := { db_id : string }.
Record Writer := { w_path : Path }.
Record PackageFile := { pf_meta : string }.

(** The label of a request is [fmt.Sprintf "[ %d / %d ] %v" (i+1)
    (len missing) p]; its three arguments are kept instead of the
    formatted string. *)
Inductive Label :=
| NoLabel
| JobLabel (i total : nat) (p : PackageEntry).

#[global] Instance Label_eq_dec : EqDecision Label.
Proof. solve_decision. Defined.

(** [grab.Request] with the fields [Sync] sets. *)
Record Request := {
  req_URL : string;
  req_Label : Label;
  req_Filename : Path;
  req_Size : Z;
  req_Checksum : option (string * list Z);
}.

(** [grab.Response] with the fields [Sync] reads. *)
Record Response := {
  resp_Request : Request;
  resp_Filename : Path;
  resp_Error : option Error;
}.

(** ** The log

    Every [Errorf] and [Dprintf] call of [repo.go] is one constructor of
    [Msg], with the arguments of its format string. *)

Inductive Msg :=
| MsgCaching (repo : string) (path : string)
| MsgLoadingMetadata
| MsgFound (n : nat)
| MsgChecking (packagedir : string)
| MsgComputeChecksumFailed (p : PackageEntry)
| MsgChecksumValidationFailed (p : PackageEntry)
| MsgChecksumValidationError (p : PackageEntry)
| MsgTooLarge (actual expected : Z) (p : PackageEntry)
| MsgIncomplete (p : PackageEntry)
| MsgScheduled (n : nat) (totalsize : Z)
| MsgRequestError (p : PackageEntry)
| MsgReadChecksumError (p : PackageEntry)
| MsgDecodeChecksumError (p : PackageEntry)
| MsgDownloadError (label : Label)
| MsgGPGReadError (label : Label)
| MsgGPGCheckFailed (label : Label)
| MsgDeleteError (label : Label)
| MsgInserting (n : nat).

Inductive LogLine :=
| LogError (err : option Error) (msg : Msg)
| LogDebug (msg : Msg).

(** ** The world

    [w_fs] is the file system, [w_log] the lines logged so far (oldest
    first), [w_open] the files held open, [w_index] the records handed to
    the index writer so far and [w_index_closed] whether that writer was
    closed. *)

Record World := {
  w_fs : FS;
  w_log : list LogLine;
  w_open : list Path;
  w_index : list PackageFile;
  w_index_closed : bool;
}.

Definition set_fs (fs : FS) (w : World) : World :=
  {| w_fs := fs; w_log := w_log w; w_open := w_open w;
     w_index := w_index w; w_index_closed := w_index_closed w |}.

Definition add_log (l : LogLine) (w : World) : World :=
  {| w_fs := w_fs w; w_log := w_log w ++ [l]; w_open := w_open w;
     w_index := w_index w; w_index_closed := w_index_closed w |}.

Definition set_open (o : list Path) (w : World) : World :=
  {| w_fs := w_fs w; w_log := w_log w; w_open := o;
     w_index := w_index w; w_index_closed := w_index_closed w |}.

(** ** The monad of [Sync]

    A call ends with a value, with a returned error ([Fail]) or with a
    panic; the world is threaded through all three. *)

Inductive Res (A : Type) :=
| Done (a : A)
| Fail (err : Error)
| Panic (err : Error).
Arguments Done {A} a.
Arguments Fail {A} err.
Arguments Panic {A} err.

Definition M (A : Type) : Type := World → Res A * World.

Definition ret {A} (a : A) : M A := λ w, (Done a, w).

Definition bind {A B} (m : M A) (k : A → M B) : M B :=
  λ w, match m w with
       | (Done a, w') => k a w'
       | (Fail err, w') => (Fail err, w')
       | (Panic err, w') => (Panic err, w')
       end.

Notation "'let!' x ':=' m 'in' k" := (bind m (λ x, k))
  (at level 10, x pattern, m at level 100, k at level 200, only parsing).
Notation "'do!' m 'in' k" := (bind m (λ _, k))
  (at level 10, m at level 100, k at level 200, only parsing).

(** [return err] *)
Definition fail {A} (err : Error) : M A := λ w, (Fail err, w).

(** A call that changes the world and cannot fail by itself. *)
Definition call {A} (f : World → A * World) : M A :=
  λ w, let (a, w') := f w in (Done a, w').

(** A call that only looks at the world. *)
Definition read {A} (f : World → A) : M A := λ w, (Done (f w), w).

(** [v, err := m()] for a function [m] of this file: the returned error
    becomes a value of the caller. *)
Definition try {A} (m : M A) : M (Error + A) :=
  λ w, match m w with
       | (Done a, w') => (Done (inr a), w')
       | (Fail err, w') => (Done (inl err), w')
       | (Panic err, w') => (Panic err, w')
       end.

(** [defer cleanup()] in front of [body]: the cleanup runs when the body
    is left, whichever way. *)
Definition defer {A} (cleanup : World → World) (body : M A) : M A :=
  λ w, let (r, w') := body w in (r, cleanup w').

(** Modelled from the spec: [Errorf] and [Dprintf] are declared outside
    [repo.go]; the spec (4.1, 4.2, 4.3, 7) has every such call log its
    line and the sync go on, so a call appends the line to the log and
    returns. *)
Definition Errorf (err : option Error) (msg : Msg) : M unit :=
  λ w, (Done tt, add_log (LogError err msg) w).

Definition Dprintf (msg : Msg) : M unit :=
  λ w, (Done tt, add_log (LogDebug msg) w).

(** Modelled from the spec: [PanicOn] is declared outside [repo.go]; the
    spec (4.4, 9) describes its use as an unconditional abort of the
    whole sync on an error, so a non-nil error panics and nil returns. *)
Definition PanicOn (err : option Error) : M unit :=
  λ w, match err with
       | Some e => (Panic e, w)
       | None => (Done tt, w)
       end.

(** ** The calls into [os], [io/ioutil] and [path/filepath] *)

(** [os.MkdirAll]: nothing to do for a directory that exists, the empty
    path cannot be made. *)
Definition os_MkdirAll (path : string) (w : World) : option Error * World :=
  match path with
  | EmptyString => (Some ErrNotExist, w)
  | _ =>
    match w_fs w !! path with
    | Some _ => (None, w)
    | None => (None, set_fs (<[path := ∅]> (w_fs w)) w)
    end
  end.

Definition name_le (a b : FileInfo) : Prop :=
  String.leb (fi_Name a) (fi_Name b) = true.

#[global] Instance name_le_dec a b : Decision (name_le a b).
Proof. unfold name_le. apply _. Defined.

Definition file_info (entry : string * File) : FileInfo :=
  {| fi_Name := entry.1; fi_Size := File_Size entry.2 |}.

(** [ioutil.ReadDir]: the entries of the directory, sorted by name. *)
Definition ioutil_ReadDir (dirname : string) (w : World) : Error + list FileInfo :=
  match w_fs w !! dirname with
  | None => inl ErrNotExist
  | Some entries => inr (merge_sort name_le (file_info <$> map_to_list entries))
  end.

(** An open file: where it was opened and what it holds. *)
Record OsFile := { of_name : Path; of_file : File }.

Definition os_Open (name : Path) (w : World) : (Error + OsFile) * World :=
  match fs_lookup (w_fs w) name with
  | None => (inl ErrNotExist, w)
  | Some f =>
    if f_readable f
    then (inr {| of_name := name; of_file := f |}, set_open (name :: w_open w) w)
    else (inl ErrPermission, w)
  end.

Fixpoint remove_first (name : Path) (l : list Path) : list Path :=
  match l with
  | [] => []
  | x :: l' => if decide (x = name) then l' else x :: remove_first name l'
  end.

Definition os_Close (f : OsFile) (w : World) : World :=
  set_open (remove_first (of_name f) (w_open w)) w.

Definition os_Remove (name : Path) (w : World) : option Error * World :=
  match w_fs w !! p_dir name with
  | None => (Some ErrNotExist, w)
  | Some entries =>
    match entries !! p_elem name with
    | None => (Some ErrNotExist, w)
    | Some f =>
      if f_immutable f then (Some ErrPermission, w)
      else (None, set_fs (<[p_dir name := delete (p_elem name) entries]> (w_fs w)) w)
    end
  end.

(** [filepath.Match] for the patterns [Sync] uses: a star stands for any
    run of bytes that are no separator, every other byte for itself. *)
Fixpoint glob_match (pattern : list ascii) : list ascii → bool :=
  match pattern with
  | [] => λ name, match name with [] => true | _ => false end
  | c :: pattern' =>
    if Ascii.eqb c "*"%char then
      fix star (name : list ascii) : bool :=
        glob_match pattern' name ||
        match name with
        | [] => false
        | d :: name' => negb (is_sep d) && star name'
        end
    else
      λ name,
        match name with
        | [] => false
        | d :: name' => Ascii.eqb c d && glob_match pattern' name'
        end
  end.

Definition filepath_Match (pattern name : string) : bool :=
  glob_match (list_ascii_of_string pattern) (list_ascii_of_string name).

Definition string_le (a b : string) : Prop := String.leb a b = true.

#[global] Instance string_le_dec a b : Decision (string_le a b).
Proof. unfold string_le. apply _. Defined.

(** [filepath.Glob]: the entries of the pattern's directory whose names
    match, sorted, each joined to the directory.  A directory that cannot
    be read gives no match and no error.  The directory of the pattern is
    taken as it is written: a package directory with a star, a question
    mark, a bracket or a backslash in its name is not covered, and with
    it the one error of [filepath.Glob], the malformed pattern. *)
Definition filepath_Glob (pattern : Path) (w : World) : list Path * option Error :=
  match w_fs w !! p_dir pattern with
  | None => ([], None)
  | Some entries =>
    (mkPath (p_dir pattern) <$>
       merge_sort string_le
         (filter (λ n, filepath_Match (p_elem pattern) n = true) (map_to_list entries).*1),
     None)
  end.

Definition uint64 (z : Z) : Z := z mod 2 ^ 64.

(** ** The collaborators

    Functions of the repository that are not in [repo.go], and of the
    [grab], [rpm] and [openpgp] packages.  [OpenKeyRing] and
    [ValidateFileChecksum] read files and change nothing.  [url_Parse]
    stands for the one way [grab.NewRequest] fails. *)

Class Env := {
  OpenKeyRing : string → FS → Error + KeyRing;
  NewCache : string → World → (Error + Cache) * World;
  NewRepoCache : Cache → Repo → World → (Error + RepoCache) * World;
  Update : RepoCache → World → option Error * World;
  PrimaryDB : RepoCache → World → (Error + PrimaryDb) * World;
  Packages : PrimaryDb → World → (Error + list PackageEntry) * World;
  FilterPackages : Repo → list PackageEntry → list PackageEntry;
  ValidateFileChecksum : Path → string → string → FS → option Error;
  urljoin : string → string → string;
  url_Parse : string → option Error;
  DownloadThreads : nat;
  completion_picks : nat → list Request → list nat;
  grab_transfer : Request → World → option Error * World;
  rpm_GPGCheck : OsFile → option KeyRing → option Error;
  createrepo : Path → World → (Error + Writer) * World;
  rpm_ReadPackageFile : File → Error + PackageFile;
}.

Section Sync.
Context `{env : Env}.

(** ** [CacheLocal] *)

Definition CacheLocal (c : Repo) (path : string) : M RepoCache :=
  do! Dprintf (MsgCaching (Repo_String c) path) in
  (* connect to cache *)
  let! r := call (NewCache path) in
  match r with
  | inl err => fail err
  | inr cache =>
    (* get cache for this repo *)
    let! r := call (NewRepoCache cache c) in
    match r with
    | inl err => fail err
    | inr repocache =>
      (* update cache *)
      let! err := call (Update repocache) in
      match err with
      | Some err => fail err
      | None => ret repocache
      end
    end
  end.

(** ** [Sync], loop by loop *)

(** The search of the local files for one package (the inner loop); the
    result is the variable [found].  Every [break] leaves [found] as it
    is at that point. *)
Fixpoint search_local_files (p : PackageEntry) (package_filename : string)
    (package_path : Path) (files : list FileInfo) : M bool :=
  match files with
  | [] => ret false
  | fi :: files' =>
    (* find file for package *)
    if decide (fi_Name fi = package_filename) then
      (* check file size *)
      if decide (fi_Size fi = PackageSize p) then
        (* validate checksum *)
        match pkg_Checksum p with
        | inl err =>
          do! Errorf (Some err) (MsgComputeChecksumFailed p) in
          ret false
        | inr sum =>
          let! err := read (λ w, ValidateFileChecksum package_path sum (ChecksumType p) (w_fs w)) in
          match err with
          | Some err =>
            if decide (err = ErrChecksumMismatch) then
              do! Errorf (Some err) (MsgChecksumValidationFailed p) in
              ret false
            else
              do! Errorf (Some err) (MsgChecksumValidationError p) in
              ret false
          | None =>
            (* valid package found *)
            ret true
          end
        end
      else if decide (PackageSize p < fi_Size fi) then
        (* existing file is too large (smaller is okay); the error
           variable in scope here is the one of the function, nil *)
        do! Errorf None (MsgTooLarge (uint64 (fi_Size fi)) (uint64 (PackageSize p)) p) in
        ret false
      else
        do! Dprintf (MsgIncomplete p) in
        search_local_files p package_filename package_path files'
    else search_local_files p package_filename package_path files'
  end.

(** The list of missing packages (the outer loop), with the running
    total of their sizes, an unsigned 64-bit integer. *)
Fixpoint build_missing (packagedir : string) (files : list FileInfo)
    (packages : list PackageEntry) (missing : list PackageEntry) (totalsize : Z)
    : M (list PackageEntry * Z) :=
  match packages with
  | [] => ret (missing, totalsize)
  | p :: packages' =>
    let package_filename := filepath_Base (LocationHref p) in
    let package_path := filepath_Join packagedir (filepath_Base (LocationHref p)) in
    (* search local files *)
    let! found := search_local_files p package_filename package_path files in
    if negb found then
      build_missing packagedir files packages'
        (missing ++ [p]) (uint64 (totalsize + uint64 (PackageSize p)))
    else build_missing packagedir files packages' missing totalsize
  end.

Definition grab_NewRequest (urlStr : string) : Error + Request :=
  match url_Parse urlStr with
  | Some err => inl err
  | None =>
    inr {| req_URL := urlStr; req_Label := NoLabel;
           req_Filename := mkPath "" ""; req_Size := 0; req_Checksum := None |}
  end.

Definition set_job (req : Request) (label : Label) (filename : Path) (size : Z) : Request :=
  {| req_URL := req_URL req; req_Label := label; req_Filename := filename;
     req_Size := size; req_Checksum := req_Checksum req |}.

Definition SetChecksum (req : Request) (algorithm : string) (checksum : list Z) : Request :=
  {| req_URL := req_URL req; req_Label := req_Label req;
     req_Filename := req_Filename req; req_Size := req_Size req;
     req_Checksum := Some (algorithm, checksum) |}.

(** The download jobs (the loop over [missing]); [i] counts from 0 and
    [total] is [len(missing)]. *)
Fixpoint schedule_jobs (c : Repo) (packagedir : string) (total i : nat)
    (missing : list PackageEntry) (reqs : list Request) : M (list Request) :=
  match missing with
  | [] => ret reqs
  | p :: missing' =>
    match grab_NewRequest (urljoin (BaseURL c) (LocationHref p)) with
    | inl err =>
      do! Errorf (Some err) (MsgRequestError p) in
      schedule_jobs c packagedir total (S i) missing' reqs
    | inr req =>
      let req := set_job req (JobLabel (i + 1) total p)
                   (filepath_Join packagedir (filepath_Base (LocationHref p)))
                   (uint64 (PackageSize p)) in
      match pkg_Checksum p with
      | inl err =>
        do! Errorf (Some err) (MsgReadChecksumError p) in
        schedule_jobs c packagedir total (S i) missing' reqs
      | inr sum =>
        match hex_DecodeString sum with
        | inl err =>
          do! Errorf (Some err) (MsgDecodeChecksumError p) in
          schedule_jobs c packagedir total (S i) missing' reqs
        | inr b =>
          let req := SetChecksum req (ChecksumType p) b in
          schedule_jobs c packagedir total (S i) missing' (reqs ++ [req])
        end
      end
    end
  end.

(** The order in which the transfers finish: every request is put
    somewhere into the order of the requests after it, at the place the
    scheduler picks. *)
Fixpoint insert_at {A} (i : nat) (x : A) (l : list A) : list A :=
  match i, l with
  | S i', y :: l' => y :: insert_at i' x l'
  | _, _ => x :: l
  end.

Fixpoint completion_order (picks : list nat) (reqs : list Request) : list Request :=
  match reqs with
  | [] => []
  | req :: reqs' => insert_at (hd 0%nat picks) req (completion_order (tl picks) reqs')
  end.

Fixpoint transfer_all (reqs : list Request) : M (list Response) :=
  match reqs with
  | [] => ret []
  | req :: reqs' =>
    let! err := call (grab_transfer req) in
    let! responses := transfer_all reqs' in
    ret ({| resp_Request := req; resp_Filename := req_Filename req;
            resp_Error := err |} :: responses)
  end.

(** Modelled from the spec: [download] is declared outside [repo.go].
    The spec (4.2, 6) has it attempt every job exactly once and yield one
    outcome per job, in the order the transfers finish and not in the
    order of the jobs; a failed transfer is an outcome with an error and
    stops nothing.  The outcomes are delivered here as a list, all
    transfers being over when the first one is handled. *)
Definition download (reqs : list Request) (threads : nat) : M (list Response) :=
  transfer_all (completion_order (completion_picks threads reqs) reqs).

(** The handling of one finished package (the body of the loop over the
    responses); the result is the file whose [Close] was deferred. *)
Definition handle_response (c : Repo) (keyring : option KeyRing) (resp : Response)
    : M (option OsFile) :=
  match resp_Error resp with
  | Some err =>
    do! Errorf (Some err) (MsgDownloadError (req_Label (resp_Request resp))) in
    ret None
  | None =>
    (* gpg check *)
    if GPGCheck c then
      (* open downloaded package for reading *)
      let! r := call (os_Open (resp_Filename resp)) in
      match r with
      | inl err =>
        do! Errorf (Some err) (MsgGPGReadError (req_Label (resp_Request resp))) in
        ret None
      | inr f =>
        (* gpg check *)
        match rpm_GPGCheck f keyring with
        | Some err =>
          do! Errorf (Some err) (MsgGPGCheckFailed (req_Label (resp_Request resp))) in
          (* delete bad package *)
          let! err := call (os_Remove (resp_Filename resp)) in
          match err with
          | Some err =>
            do! Errorf (Some err) (MsgDeleteError (req_Label (resp_Request resp))) in
            ret (Some f)
          | None => ret (Some f)
          end
        | None => ret (Some f)
        end
      end
    else ret None
  end.

Definition push_deferred (f : option OsFile) (deferred : list OsFile) : list OsFile :=
  match f with
  | Some f => f :: deferred
  | None => deferred
  end.

(** The loop over the responses; [deferred] holds the files to close
    when [Sync] returns, the last one opened first. *)
Fixpoint handle_responses (c : Repo) (keyring : option KeyRing)
    (responses : list Response) (deferred : list OsFile) : M (list OsFile) :=
  match responses with
  | [] => ret deferred
  | resp :: responses' =>
    let! f := handle_response c keyring resp in
    handle_responses c keyring responses' (push_deferred f deferred)
  end.

Definition close_all (deferred : list OsFile) (w : World) : World :=
  foldl (λ w f, os_Close f w) w deferred.

(** [rpm.OpenPackageFile]: the file is read and parsed; the package is
    nil when there is an error. *)
Definition rpm_OpenPackageFile (path : Path) (w : World) : option PackageFile * option Error :=
  match fs_lookup (w_fs w) path with
  | None => (None, Some ErrNotExist)
  | Some f =>
    if f_readable f then
      match rpm_ReadPackageFile f with
      | inl err => (None, Some err)
      | inr p => (Some p, None)
      end
    else (None, Some ErrPermission)
  end.

(** Modelled from the spec: the index writer is declared outside
    [repo.go]; the spec (6) gives it a [write] that takes the metadata of
    one artifact and a [close] that ends the index.  [Write] adds the
    record to the index, nothing for a nil package; [Close] marks the
    index closed. *)
Definition Writer_Write (wr : Writer) (p : option PackageFile) : M unit :=
  λ w, (Done tt,
        {| w_fs := w_fs w; w_log := w_log w; w_open := w_open w;
           w_index := w_index w ++ from_option (λ p, [p]) [] p;
           w_index_closed := w_index_closed w |}).

Definition Writer_Close (wr : Writer) (w : World) : World :=
  {| w_fs := w_fs w; w_log := w_log w; w_open := w_open w;
     w_index := w_index w; w_index_closed := true |}.

(** The loop that adds the packages to the primary db of the index. *)
Fixpoint add_packages (wr : Writer) (files : list Path) : M unit :=
  match files with
  | [] => ret tt
  | f :: files' =>
    let! (p, err) := read (rpm_OpenPackageFile f) in
    do! (match err with
         | Some err => PanicOn (Some err)
         | None => ret tt
         end) in
    do! Writer_Write wr p in
    add_packages wr files'
  end.

(** The last block of [Sync]: the index of the package directory. *)
Definition rebuild_index (packagedir : string) : M unit :=
  let! r := call (createrepo (filepath_Join packagedir "/repodata")) in
  match r with
  | inl err => PanicOn (Some err)
  | inr wr =>
    defer (Writer_Close wr) (
      (* enumerate package dir *)
      let! (files, err) := read (filepath_Glob (filepath_Join packagedir "/*.rpm")) in
      do! (match err with
           | Some err => PanicOn (Some err)
           | None => ret tt
           end) in
      (* add to primary db *)
      do! Dprintf (MsgInserting (length files)) in
      add_packages wr files)
  end.

(** Lines 94 to 135 of [Sync]: the key ring, the cached metadata, the
    package directory and its listing, the filtered packages. *)
Definition Sync_load (c : Repo) (cachedir packagedir : string)
    : M (option KeyRing * list FileInfo * list PackageEntry) :=
  (* load gpg keys *)
  let! keyring :=
    (if GPGCheck c then
       let! r := read (λ w, OpenKeyRing (GPGKey c) (w_fs w)) in
       match r with
       | inl err => fail err
       | inr keyring => ret (Some keyring)
       end
     else ret None) in
  (* cache repo metadata locally *)
  let! r := try (CacheLocal c cachedir) in
  match r with
  | inl err => fail (ErrCacheMetadata (Repo_String c) err)
  | inr repocache =>
    (* get primary db from cache *)
    let! r := call (PrimaryDB repocache) in
    match r with
    | inl err => fail err
    | inr primarydb =>
      (* create package directory *)
      let! err := call (os_MkdirAll packagedir) in
      do! (match err with
           | Some err =>
             if negb (os_IsExist err) then fail (ErrCreatePath packagedir err) else ret tt
           | None => ret tt
           end) in
      (* list existing files *)
      let! r := read (ioutil_ReadDir packagedir) in
      match r with
      | inl _ => fail ErrReadingPackages
      | inr files =>
        (* load packages from primary_db *)
        do! Dprintf MsgLoadingMetadata in
        let! r := call (Packages primarydb) in
        match r with
        | inl err => fail (ErrPrimaryDb err)
        | inr packages =>
          (* filter list *)
          let packages := FilterPackages c packages in
          do! Dprintf (MsgFound (length packages)) in
          ret (keyring, files, packages)
        end
      end
    end
  end.

(** Lines 137 to 249 of [Sync]: what is missing, the downloads and the
    signature checks; the result is the list of the deferred [Close]s. *)
Definition Sync_fetch (c : Repo) (packagedir : string) (keyring : option KeyRing)
    (files : list FileInfo) (packages : list PackageEntry) : M (list OsFile) :=
  (* build a list of missing packages *)
  do! Dprintf (MsgChecking packagedir) in
  let! (missing, totalsize) := build_missing packagedir files packages [] 0 in
  do! Dprintf (MsgScheduled (length missing) totalsize) in
  (* schedule download jobs *)
  let! reqs := schedule_jobs c packagedir (length missing) 0 missing [] in
  (* download missing packages *)
  let! responses := download reqs DownloadThreads in
  (* handle each finished package *)
  handle_responses c keyring responses [].

(** Lines 137 to 275 of [Sync]: the above, then the index, then the
    deferred calls and [return nil]. *)
Definition Sync_mirror (c : Repo) (packagedir : string) (keyring : option KeyRing)
    (files : list FileInfo) (packages : list PackageEntry) : M unit :=
  let! deferred := Sync_fetch c packagedir keyring files packages in
  defer (close_all deferred) (rebuild_index packagedir).

Definition Sync (c : Repo) (cachedir packagedir : string) : M unit :=
  let! (keyring, files, packages) := Sync_load c cachedir packagedir in
  Sync_mirror c packagedir keyring files packages.

End Sync.

(** ** Words for the statements

    Nothing here is part of the program: these definitions name what the
    loops above compute, so that the theorems can speak about it. *)

Definition log_append (lines : list LogLine) (w : World) : World :=
  {| w_fs := w_fs w; w_log := w_log w ++ lines; w_open := w_open w;
     w_index := w_index w; w_index_closed := w_index_closed w |}.

Definition index_append (added : list PackageFile) (w : World) : World :=
  {| w_fs := w_fs w; w_log := w_log w; w_open := w_open w;
     w_index := w_index w ++ added; w_index_closed := w_index_closed w |}.

Section Descriptions.
Context `{env : Env}.

(** The file at [path] parses to [pk]. *)
Definition parses_to (w : World) (path : Path) (pk : PackageFile) : Prop :=
  rpm_OpenPackageFile path w = (Some pk, None).

(** The value of [found] after the inner loop for [p]. *)
Definition found_in (packagedir : string) (files : list FileInfo)
    (p : PackageEntry) (w : World) : bool :=
  match (search_local_files p (filepath_Base (LocationHref p))
           (filepath_Join packagedir (filepath_Base (LocationHref p))) files w).1 with
  | Done found => found
  | _ => false
  end.

(** The list [missing] after the outer loop. *)
Definition missing_of (packagedir : string) (files : list FileInfo)
    (packages : list PackageEntry) (w : World) : list PackageEntry :=
  match (build_missing packagedir files packages [] 0 w).1 with
  | Done (missing, _) => missing
  | _ => []
  end.

(** The spec's words for a valid local file: one with the name of the
    entry, of the declared size, whose checksum matches. *)
Definition spec_Valid (packagedir : string) (files : list FileInfo) (fs : FS)
    (p : PackageEntry) : Prop :=
  ∃ fi sum,
    fi ∈ files ∧
    fi_Name fi = filepath_Base (LocationHref p) ∧
    fi_Size fi = PackageSize p ∧
    pkg_Checksum p = inr sum ∧
    ValidateFileChecksum (filepath_Join packagedir (filepath_Base (LocationHref p)))
      sum (ChecksumType p) fs = None.

(** What one turn of the scheduling loop makes of the package at index
    [i]: the line it logs, or the request it appends. *)
Definition job_of (c : Repo) (packagedir : string) (total i : nat) (p : PackageEntry)
    : LogLine + Request :=
  match grab_NewRequest (urljoin (BaseURL c) (LocationHref p)) with
  | inl err => inl (LogError (Some err) (MsgRequestError p))
  | inr req =>
    match pkg_Checksum p with
    | inl err => inl (LogError (Some err) (MsgReadChecksumError p))
    | inr sum =>
      match hex_DecodeString sum with
      | inl err => inl (LogError (Some err) (MsgDecodeChecksumError p))
      | inr b =>
        inr (SetChecksum
               (set_job req (JobLabel (i + 1) total p)
                  (filepath_Join packagedir (filepath_Base (LocationHref p)))
                  (uint64 (PackageSize p)))
               (ChecksumType p) b)
      end
    end
  end.

Fixpoint jobs_of (c : Repo) (packagedir : string) (total i : nat)
    (missing : list PackageEntry) : list (LogLine + Request) :=
  match missing with
  | [] => []
  | p :: missing' =>
    job_of c packagedir total i p :: jobs_of c packagedir total (S i) missing'
  end.

End Descriptions.

Definition lefts {A B} (l : list (A + B)) : list A :=
  omap (λ x, match x with inl a => Some a | inr _ => None end) l.

Definition rights {A B} (l : list (A + B)) : list B :=
  omap (λ x, match x with inl _ => None | inr b => Some b end) l.

(** A line the scheduling loop logs for a job it does not dispatch. *)
Definition pre_dispatch_failure (p : PackageEntry) (line : LogLine) : Prop :=
  ∃ err, line = LogError (Some err) (MsgRequestError p) ∨
         line = LogError (Some err) (MsgReadChecksumError p) ∨
         line = LogError (Some err) (MsgDecodeChecksumError p).

(** The names [filepath.Glob] finds for "*.rpm": a stem without
    separator, then ".rpm". *)
Definition rpm_name (name : string) : Prop :=
  ∃ stem, name = stem +:+ ".rpm" ∧
          Forall (λ c, is_sep c = false) (list_ascii_of_string stem).

(** ** A small environment

    One concrete choice of collaborators, used to run [Sync] on examples.
    The checksum of a file is its first two bytes under the one
    algorithm "toy"; a transfer writes the URL as the file; a file is
    signed when it starts with "s", and parses when it is not empty. *)

Definition demo_validate (path : Path) (sum type : string) (fs : FS) : option Error :=
  match fs_lookup fs path with
  | None => Some ErrNotExist
  | Some f =>
    if negb (f_readable f) then Some ErrPermission
    else if negb (String.eqb type "toy") then Some (ErrOther "unsupported checksum type")
    else if String.eqb (substring 0 2 (f_data f)) sum then None
    else Some ErrChecksumMismatch
  end.

Definition write_file (path : Path) (f : File) (fs : FS) : FS :=
  <[p_dir path := <[p_elem path := f]> (default ∅ (fs !! p_dir path))]> fs.

Definition demo_transfer (req : Request) (w : World) : option Error * World :=
  if String.prefix "http://" (req_URL req) then
    (None,
     set_fs (write_file (req_Filename req)
               {| f_data := req_URL req; f_readable := true; f_immutable := false |}
               (w_fs w)) w)
  else (Some (ErrOther "unsupported protocol scheme"), w).

Definition demo_a : PackageEntry :=
  {| LocationHref := "Packages/a.rpm"; PackageSize := 4;
     pkg_Checksum := inr "aa"; ChecksumType := "toy" |}.

Definition demo_big : PackageEntry :=
  {| LocationHref := "Packages/big.rpm"; PackageSize := 3;
     pkg_Checksum := inr "bb"; ChecksumType := "toy" |}.

Definition demo_odd : PackageEntry :=
  {| LocationHref := "Packages/odd.rpm"; PackageSize := 7;
     pkg_Checksum := inr "xyz"; ChecksumType := "toy" |}.

(** An entry for the same file name as [demo_a], under another
    directory and with another checksum. *)
Definition demo_other_a : PackageEntry :=
  {| LocationHref := "updates/a.rpm"; PackageSize := 4;
     pkg_Checksum := inr "ab"; ChecksumType := "toy" |}.

Definition demo_catalog : list PackageEntry := [demo_a; demo_big; demo_odd].

#[local] Instance demo_env : Env := {|
  OpenKeyRing := λ path fs,
    if String.eqb path "" then inl (ErrOther "no key file") else inr {| kr_id := path |};
  NewCache := λ path w, (inr {| cache_path := path |}, w);
  NewRepoCache := λ cache c w, (inr {| rc_id := ID c |}, w);
  Update := λ rc w, (None, w);
  PrimaryDB := λ rc w, (inr {| db_id := rc_id rc |}, w);
  Packages := λ db w, (inr demo_catalog, w);
  FilterPackages := λ c packages, packages;
  ValidateFileChecksum := demo_validate;
  urljoin := λ base href, base +:+ "/" +:+ href;
  url_Parse := λ url, if String.eqb url "" then Some (ErrOther "empty url") else None;
  DownloadThreads := 5%nat;
  completion_picks := λ threads reqs, [1%nat];
  grab_transfer := demo_transfer;
  rpm_GPGCheck := λ f keyring,
    if String.prefix "s" (f_data (of_file f)) then None
    else Some (ErrOther "signature check failed");
  createrepo := λ path w, (inr {| w_path := path |}, w);
  rpm_ReadPackageFile := λ f,
    if String.eqb (f_data f) "" then inl (ErrOther "not an rpm")
    else inr {| pf_meta := f_data f |};
|}.

Definition demo_file (data : string) : File :=
  {| f_data := data; f_readable := true; f_immutable := false |}.

Definition demo_repo (gpgcheck : bool) (gpgkey : string) : Repo :=
  {| ID := "base"; Name := "Base"; Architecture := "x86_64";
     BaseURL := "http://mirror/base"; CachePath := ""; Checksum := "";
     DeleteRemoved := false; GPGCheck := gpgcheck; GPGKey := gpgkey;
     Groupfile := ""; IncludeSources := false; LocalPath := "";
     MirrorURL := ""; NewOnly := false; MaxDate := 0; MinDate := 0;
     YumfileLineNo := 1; YumfilePath := "Yumfile" |}.

Definition demo_world : World :=
  {| w_fs := {[ "pkgs" := {[ "a.rpm" := demo_file "aaaa"; "big.rpm" := demo_file "bbbbb" ]} ]};
     w_log := []; w_open := []; w_index := []; w_index_closed := false |}.

(** The listing of "pkgs" in [demo_world]. *)
Definition demo_files : list FileInfo :=
  [ {| fi_Name := "a.rpm"; fi_Size := 4 |}; {| fi_Name := "big.rpm"; fi_Size := 5 |} ].

(** A world whose package directory holds, next to a good package, an
    empty file with the name of one. *)
Definition demo_world_stray : World :=
  {| w_fs := {[ "pkgs" := {[ "a.rpm" := demo_file "aaaa"; "stray.rpm" := demo_file "" ]} ]};
     w_log := []; w_open := []; w_index := []; w_index_closed := false |}.

Definition demo_response (p : PackageEntry) (name : string) (err : option Error) : Response :=
  {| resp_Request :=
       {| req_URL := "http://mirror/base/" +:+ LocationHref p;
          req_Label := JobLabel 1 1 p;
          req_Filename := mkPath "pkgs" name;
          req_Size := PackageSize p;
          req_Checksum := None |};
     resp_Filename := mkPath "pkgs" name;
     resp_Error := err |}.

(** ** [NewRepo] and [Validate]

    [NewErrorf] is declared outside [repo.go]; it makes an error of a
    format and its arguments, and the two errors of [Validate] are kept
    as the two formats with their arguments. *)

Inductive YumfileError :=
| ErrNoID (yumfile : string) (line : Z)
| ErrNoURL (id : string) (yumfile : string) (line : Z).

(** [&Repo{}]: every field has its zero value. *)
Definition NewRepo : Repo :=
  {| ID := ""; Name := ""; Architecture := ""; BaseURL := ""; CachePath := "";
     Checksum := ""; DeleteRemoved := false; GPGCheck := false; GPGKey := "";
     Groupfile := ""; IncludeSources := false; LocalPath := ""; MirrorURL := "";
     NewOnly := false; MaxDate := 0; MinDate := 0; YumfileLineNo := 0;
     YumfilePath := "" |}.

Definition Validate (c : Repo) : option YumfileError :=
  if String.eqb (ID c) "" then
    Some (ErrNoID (YumfilePath c) (YumfileLineNo c))
  else if String.eqb (MirrorURL c) "" && String.eqb (BaseURL c) "" then
    Some (ErrNoURL (ID c) (YumfilePath c) (YumfileLineNo c))
  else None.

(** ** More words for the statements *)

(** The sum of the sizes as the loop adds them, each converted to an
    unsigned 64-bit integer. *)
Definition sizes_sum (missing : list PackageEntry) : Z :=
  foldr (λ p acc, uint64 (PackageSize p) + acc) 0 missing.

(** The number in front of a label. *)
Definition label_index (label : Label) : nat :=
  match label with
  | NoLabel => 0%nat
  | JobLabel i _ _ => i
  end.

(** The lines the loop over the responses logs for failed downloads. *)
Definition download_error_lines (responses : list Response) : list LogLine :=
  omap (λ resp,
          (λ err, LogError (Some err) (MsgDownloadError (req_Label (resp_Request resp))))
            <$> resp_Error resp)
       responses.

Definition is_hex (c : ascii) : Prop := is_Some (fromHexChar c).

(** A directory name that [filepath.Glob] takes as it is written: it
    holds none of the bytes that make a pattern. *)
Definition glob_literal (dir : string) : Prop :=
  Forall (λ ch, ch ≠ "*"%char ∧ ch ≠ "?"%char ∧ ch ≠ "["%char ∧ ch ≠ "\"%char)
    (list_ascii_of_string dir).

(** The location [href] has [name] as its last element: it is [name],
    or it ends in a separator and [name]. *)
Definition has_base (href name : string) : Prop :=
  href = name ∨ ∃ prefix, href = prefix +:+ "/" +:+ name.

(** A world whose package directory holds an empty file that sorts
    first and a good package that sorts after it. *)
Definition demo_world_leftover : World :=
  {| w_fs := {[ "pkgs" := {[ "a.rpm" := demo_file ""; "z.rpm" := demo_file "zzzz" ]} ]};
     w_log := []; w_open := []; w_index := []; w_index_closed := false |}.

(** A download client whose transfers all break off: each leaves an
    empty file at the destination and reports an error. *)
Definition demo_transfer_broken (req : Request) (w : World) : option Error * World :=
  (Some (ErrOther "connection reset"),
   set_fs (write_file (req_Filename req) (demo_file "") (w_fs w)) w).

(** [demo_env] with that download client. *)
Definition demo_env_broken : Env := {|
  OpenKeyRing := @OpenKeyRing demo_env;
  NewCache := @NewCache demo_env;
  NewRepoCache := @NewRepoCache demo_env;
  Update := @Update demo_env;
  PrimaryDB := @PrimaryDB demo_env;
  Packages := @Packages demo_env;
  FilterPackages := @FilterPackages demo_env;
  ValidateFileChecksum := @ValidateFileChecksum demo_env;
  urljoin := @urljoin demo_env;
  url_Parse := @url_Parse demo_env;
  DownloadThreads := @DownloadThreads demo_env;
  completion_picks := @completion_picks demo_env;
  grab_transfer := demo_transfer_broken;
  rpm_GPGCheck := @rpm_GPGCheck demo_env;
  createrepo := @createrepo demo_env;
  rpm_ReadPackageFile := @rpm_ReadPackageFile demo_env;
|}.

(** [demo_repo] with a base URL that the download client of [demo_env]
    cannot fetch: its transfers fail and write nothing. *)
Definition demo_repo_offline : Repo :=
  {| ID := "base"; Name := "Base"; Architecture := "x86_64";
     BaseURL := "ftp://mirror/base"; CachePath := ""; Checksum := "";
     DeleteRemoved := false; GPGCheck := false; GPGKey := "";
     Groupfile := ""; IncludeSources := false; LocalPath := "";
     MirrorURL := ""; NewOnly := false; MaxDate := 0; MinDate := 0;
     YumfileLineNo := 1; YumfilePath := "Yumfile" |}.

(** [demo_repo] with a mirror list besides the base URL. *)
Definition demo_repo_mirrored : Repo :=
  {| ID := "base"; Name := "Base"; Architecture := "x86_64";
     BaseURL := "http://mirror/base"; CachePath := ""; Checksum := "";
     DeleteRemoved := false; GPGCheck := false; GPGKey := "";
     Groupfile := ""; IncludeSources := false; LocalPath := "";
     MirrorURL := "http://mirrors/list?repo=base"; NewOnly := false;
     MaxDate := 0; MinDate := 0; YumfileLineNo := 1; YumfilePath := "Yumfile" |}.

(** An entry for the file name of [demo_a] that declares more bytes than
    the local file has. *)
Definition demo_longer_a : PackageEntry :=
  {| LocationHref := "Packages/a.rpm"; PackageSize := 9;
     pkg_Checksum := inr "aa"; ChecksumType := "toy" |}.

(** A world whose package directory holds a signed package, a package
    that cannot be read and nothing else. *)
Definition demo_world_signed : World :=
  {| w_fs := {[ "pkgs" := {[ "s.rpm" := demo_file "signed";
                              "locked.rpm" := {| f_data := "locked"; f_readable := false;
                                                 f_immutable := false |} ]} ]};
     w_log := []; w_open := []; w_index := []; w_index_closed := false |}.

(** ** Tactics

    [run] unfolds the monad; [decided] settles a closed decidable
    statement by computation. *)

Ltac run :=
  unfold bind, ret, fail, call, read, try, defer, Errorf, Dprintf, PanicOn; simpl.

Ltac decided := apply (bool_decide_unpack _); vm_compute; exact I.

(** * Properties *)

Lemma log_append_nil w : log_append [] w = w.
Proof. destruct w; unfold log_append; simpl. by rewrite app_nil_r. Qed.

Lemma log_append_app l1 l2 w :
  log_append l2 (log_append l1 w) = log_append (l1 ++ l2) w.
Proof. unfold log_append; simpl. by rewrite app_assoc. Qed.

Lemma add_log_append l w : add_log l w = log_append [l] w.
Proof. done. Qed.

Section Reconciliation.
Context `{env : Env}.

(** The inner loop always ends with a value and only adds to the log. *)
Lemma search_local_files_log p fn path files w :
  ∃ found lines,
    search_local_files p fn path files w = (Done found, log_append lines w).
Proof.
  revert w. induction files as [|fi files IH]; intros w; simpl.
  - exists false, []. by rewrite log_append_nil.
  - repeat case_decide; run.
    + destruct (pkg_Checksum p) as [err|sum]; run.
      * by exists false, [LogError (Some err) (MsgComputeChecksumFailed p)].
      * destruct (ValidateFileChecksum _ _ _ _) as [err|] eqn:Hv; run.
        -- case_decide; run; eexists false, [_]; by rewrite <- add_log_append.
        -- exists true, []. by rewrite log_append_nil.
    + eexists false, [_]. by rewrite <- add_log_append.
    + destruct (IH (add_log (LogDebug (MsgIncomplete p)) w)) as (b & ls & ->).
      exists b, (LogDebug (MsgIncomplete p) :: ls).
      by rewrite add_log_append, log_append_app.
    + apply IH.
Qed.

(** What the loop finds depends on the file system only. *)
Lemma search_local_files_fs p fn path files w1 w2 :
  w_fs w1 = w_fs w2 →
  (search_local_files p fn path files w1).1 = (search_local_files p fn path files w2).1.
Proof.
  revert w1 w2. induction files as [|fi files IH]; intros w1 w2 Hfs; simpl; [done|].
  repeat case_decide; run; try done.
  - destruct (pkg_Checksum p) as [err|sum]; run; [done|].
    rewrite Hfs. destruct (ValidateFileChecksum _ _ _ _); run; [|done].
    by case_decide.
  - by apply IH.
  - by apply IH.
Qed.

(** Files of another name are passed over. *)
Lemma search_local_files_no_match p fn path files w :
  (∀ fi, fi ∈ files → fi_Name fi ≠ fn) →
  search_local_files p fn path files w = (Done false, w).
Proof.
  induction files as [|fi files IH]; intros Hno; simpl; [done|].
  case_decide as Hn.
  - exfalso. eapply Hno; [|exact Hn]. left.
  - apply IH. intros fi' Hin. apply Hno. by right.
Qed.

(** In a directory listing, where no two entries share a name, the one
    entry with the name of the package decides. *)
Lemma search_local_files_unique p fn path files fi w :
  NoDup (fi_Name <$> files) → fi ∈ files → fi_Name fi = fn →
  search_local_files p fn path files w = search_local_files p fn path [fi] w.
Proof.
  induction files as [|fi0 files IH]; intros Hnd Hin Hfn.
  - by apply elem_of_nil in Hin.
  - rewrite fmap_cons in Hnd. apply NoDup_cons in Hnd as [Hfresh Hnd].
    assert (Hrest : fi0 = fi → ∀ fi', fi' ∈ files → fi_Name fi' ≠ fn).
    { intros -> fi' Hin' Heq. apply Hfresh.
      rewrite Hfn, <- Heq. apply list_elem_of_fmap. by exists fi'. }
    apply elem_of_cons in Hin as [->|Hin].
    + simpl. repeat case_decide; try done.
      run. by rewrite search_local_files_no_match by auto.
    + assert (fi_Name fi0 ≠ fn) as Hne.
      { intros Heq. apply Hfresh. rewrite Heq, <- Hfn.
        apply list_elem_of_fmap. by exists fi. }
      transitivity (search_local_files p fn path files w); [|by apply IH].
      simpl. by case_decide.
Qed.

Lemma found_in_fs dir files p w1 w2 :
  w_fs w1 = w_fs w2 → found_in dir files p w1 = found_in dir files p w2.
Proof. intros Hfs. unfold found_in. by rewrite (search_local_files_fs _ _ _ _ w1 w2). Qed.

Lemma found_in_run dir files p w found w' :
  search_local_files p (filepath_Base (LocationHref p))
    (filepath_Join dir (filepath_Base (LocationHref p))) files w = (Done found, w') →
  found_in dir files p w = found.
Proof. intros Hrun. unfold found_in. by rewrite Hrun. Qed.

(** The outer loop appends, in the order of the catalog, the packages
    that were not found; it ends with a value and only adds to the log. *)
Lemma build_missing_spec dir files packages missing total w :
  ∃ total' lines,
    build_missing dir files packages missing total w =
      (Done (missing ++ filter (λ p, found_in dir files p w = false) packages, total'),
       log_append lines w).
Proof.
  revert missing total w.
  induction packages as [|p packages IH]; intros missing total w; simpl.
  - exists total, []. by rewrite app_nil_r, log_append_nil.
  - destruct (search_local_files_log p (filepath_Base (LocationHref p))
                (filepath_Join dir (filepath_Base (LocationHref p))) files w)
      as (found & ls & Hrun).
    pose proof (found_in_run _ _ _ _ _ _ Hrun) as Hfound.
    unfold bind at 1. rewrite Hrun.
    assert (Hext : filter (λ q, found_in dir files q (log_append ls w) = false) packages
                   = filter (λ q, found_in dir files q w = false) packages).
    { apply list_filter_iff. intros q. by rewrite (found_in_fs _ _ _ (log_append ls w) w). }
    rewrite filter_cons. destruct found; simpl.
    + destruct (IH missing total (log_append ls w)) as (t' & ls' & ->).
      exists t', (ls ++ ls'). rewrite Hext, log_append_app.
      case_decide; [congruence|done].
    + destruct (IH (missing ++ [p]) (uint64 (total + uint64 (PackageSize p)))
                  (log_append ls w)) as (t' & ls' & ->).
      exists t', (ls ++ ls'). rewrite Hext, log_append_app, <- app_assoc.
      case_decide; [done|congruence].
Qed.

Lemma missing_of_filter dir files packages w :
  missing_of dir files packages w
  = filter (λ p, found_in dir files p w = false) packages.
Proof.
  unfold missing_of.
  by destruct (build_missing_spec dir files packages [] 0 w) as (t & ls & ->).
Qed.

(** A package is found exactly when the spec calls its local file valid. *)
Lemma found_in_spec_Valid dir files p w :
  NoDup (fi_Name <$> files) →
  found_in dir files p w = true ↔ spec_Valid dir files (w_fs w) p.
Proof.
  intros Hnd. unfold found_in, spec_Valid.
  set (fn := filepath_Base (LocationHref p)).
  set (path := filepath_Join dir fn).
  destruct (decide (fn ∈ fi_Name <$> files)) as [Hyes|Hno].
  - apply list_elem_of_fmap in Hyes as (fi & Hfn & Hin). symmetry in Hfn.
    rewrite (search_local_files_unique p fn path files fi w Hnd Hin Hfn). simpl.
    assert (Huniq : ∀ fi', fi' ∈ files → fi_Name fi' = fn → fi' = fi).
    { intros fi' Hin' Hfn'.
      apply list_elem_of_lookup in Hin as [i Hi], Hin' as [j Hj].
      assert (i = j) as <-; [|congruence].
      eapply NoDup_lookup; [exact Hnd| |]; rewrite list_lookup_fmap.
      - by rewrite Hi.
      - rewrite Hj. simpl. congruence. }
    repeat case_decide; try done; run.
    + destruct (pkg_Checksum p) as [err|sum] eqn:Hsum; run.
      * split; [done|]. by intros (? & ? & _ & _ & _ & ? & _).
      * destruct (ValidateFileChecksum path sum (ChecksumType p) (w_fs w)) as [err|] eqn:Hv; run.
        -- split; [by case_decide|].
           intros (? & sum' & _ & _ & _ & ? & Hv'). congruence.
        -- split; [|done]. intros _. by exists fi, sum.
    + split; [done|]. intros (fi' & ? & Hin' & Hfn' & Hsz & _).
      rewrite (Huniq fi' Hin' Hfn') in Hsz. lia.
    + split; [done|]. intros (fi' & ? & Hin' & Hfn' & Hsz & _).
      rewrite (Huniq fi' Hin' Hfn') in Hsz. lia.
  - assert (Hno' : ∀ fi, fi ∈ files → fi_Name fi ≠ fn).
    { intros fi Hin Hfn. apply Hno, list_elem_of_fmap. by exists fi. }
    rewrite search_local_files_no_match by done. simpl.
    split; [done|]. intros (fi & ? & Hin & Hfn & _). by destruct (Hno' fi).
Qed.

(** Every package of the catalog that is not found is appended once. *)
Lemma missing_of_app dir files before p after w :
  found_in dir files p w = false →
  missing_of dir files (before ++ p :: after) w
  = missing_of dir files before w ++ p :: missing_of dir files after w.
Proof.
  intros Hnf. rewrite !missing_of_filter, filter_app, filter_cons.
  by case_decide.
Qed.

Lemma missing_of_run dir files packages w :
  ∃ total w',
    build_missing dir files packages [] 0 w
      = (Done (missing_of dir files packages w, total), w') ∧
    w_fs w' = w_fs w ∧ w_open w' = w_open w ∧ w_index w' = w_index w.
Proof.
  unfold missing_of.
  destruct (build_missing_spec dir files packages [] 0 w) as (t & ls & ->).
  by exists t, (log_append ls w).
Qed.

(** *** The scheduling loop *)

Lemma schedule_jobs_spec c dir total i missing reqs w :
  schedule_jobs c dir total i missing reqs w
  = (Done (reqs ++ rights (jobs_of c dir total i missing)),
     log_append (lefts (jobs_of c dir total i missing)) w).
Proof.
  revert i reqs w. induction missing as [|p missing IH]; intros i reqs w; simpl.
  - unfold rights, lefts; simpl. by rewrite app_nil_r, log_append_nil.
  - unfold job_of.
    destruct (grab_NewRequest _) as [err|req]; run.
    { rewrite IH. unfold lefts, rights; simpl. by rewrite add_log_append, log_append_app. }
    destruct (pkg_Checksum p) as [err|sum]; run.
    { rewrite IH. unfold lefts, rights; simpl. by rewrite add_log_append, log_append_app. }
    destruct (hex_DecodeString sum) as [err|b]; run.
    { rewrite IH. unfold lefts, rights; simpl. by rewrite add_log_append, log_append_app. }
    rewrite IH. unfold lefts, rights; simpl. by rewrite <- app_assoc.
Qed.

Lemma lefts_rights_length {A B} (l : list (A + B)) :
  (length (lefts l) + length (rights l) = length l)%nat.
Proof.
  unfold lefts, rights. induction l as [|[a|b] l IH]; csimpl; simpl; lia.
Qed.

Lemma jobs_of_length c dir total i missing :
  length (jobs_of c dir total i missing) = length missing.
Proof. revert i. induction missing; intros i; simpl; [done|]. by rewrite IHmissing. Qed.

Lemma job_of_request c dir total i p req :
  job_of c dir total i p = inr req →
  req_Label req = JobLabel (i + 1) total p ∧
  req_Filename req = filepath_Join dir (filepath_Base (LocationHref p)) ∧
  req_Size req = uint64 (PackageSize p) ∧
  ∃ sum b, pkg_Checksum p = inr sum ∧ hex_DecodeString sum = inr b ∧
           req_Checksum req = Some (ChecksumType p, b).
Proof.
  unfold job_of. destruct (grab_NewRequest _) as [|req0]; [done|].
  destruct (pkg_Checksum p) as [|sum]; [done|].
  destruct (hex_DecodeString sum) as [|b] eqn:Hb; [done|].
  intros [= <-]. simpl. split_and!; [done..|]. by exists sum, b.
Qed.

Lemma job_of_failure c dir total i p line :
  job_of c dir total i p = inl line → pre_dispatch_failure p line.
Proof.
  unfold job_of, pre_dispatch_failure.
  destruct (grab_NewRequest _) as [e|req0]; [intros [= <-]; eauto|].
  destruct (pkg_Checksum p) as [e|sum]; [intros [= <-]; eauto|].
  destruct (hex_DecodeString sum) as [e|b]; [intros [= <-]; eauto|done].
Qed.

Lemma rights_jobs_of_elem c dir total i missing req :
  req ∈ rights (jobs_of c dir total i missing) →
  ∃ k p, missing !! k = Some p ∧ job_of c dir total (i + k) p = inr req.
Proof.
  revert i. induction missing as [|p missing IH]; intros i; unfold rights; simpl.
  - intros Hin. by apply elem_of_nil in Hin.
  - destruct (job_of c dir total i p) as [line|req0] eqn:Hjob; simpl.
    + intros Hin. destruct (IH (S i) Hin) as (k & q & Hk & Hq).
      exists (S k), q. split; [done|]. by replace (i + S k)%nat with (S i + k)%nat by lia.
    + intros Hin. apply elem_of_cons in Hin as [->|Hin].
      * exists 0%nat, p. split; [done|]. by rewrite Nat.add_0_r.
      * destruct (IH (S i) Hin) as (k & q & Hk & Hq).
        exists (S k), q. split; [done|]. by replace (i + S k)%nat with (S i + k)%nat by lia.
Qed.

Lemma lefts_jobs_of_elem c dir total i missing line :
  line ∈ lefts (jobs_of c dir total i missing) →
  ∃ k p, missing !! k = Some p ∧ job_of c dir total (i + k) p = inl line.
Proof.
  revert i. induction missing as [|p missing IH]; intros i; unfold lefts; simpl.
  - intros Hin. by apply elem_of_nil in Hin.
  - destruct (job_of c dir total i p) as [line0|req0] eqn:Hjob; simpl.
    + intros Hin. apply elem_of_cons in Hin as [->|Hin].
      * exists 0%nat, p. split; [done|]. by rewrite Nat.add_0_r.
      * destruct (IH (S i) Hin) as (k & q & Hk & Hq).
        exists (S k), q. split; [done|]. by replace (i + S k)%nat with (S i + k)%nat by lia.
    + intros Hin. destruct (IH (S i) Hin) as (k & q & Hk & Hq).
      exists (S k), q. split; [done|]. by replace (i + S k)%nat with (S i + k)%nat by lia.
Qed.

Lemma jobs_of_lookup c dir total i missing k p :
  missing !! k = Some p →
  jobs_of c dir total i missing !! k = Some (job_of c dir total (i + k) p).
Proof.
  revert i k. induction missing as [|q missing IH]; intros i k; [done|].
  destruct k as [|k]; simpl.
  - intros [= ->]. by rewrite Nat.add_0_r.
  - intros Hk. rewrite (IH (S i) k Hk). by replace (i + S k)%nat with (S i + k)%nat by lia.
Qed.

Lemma jobs_label_above c dir total i missing t p :
  (t ≤ i)%nat →
  filter (λ r, req_Label r = JobLabel t total p) (rights (jobs_of c dir total i missing)) = [].
Proof.
  revert i. induction missing as [|q missing IH]; intros i Hle; [done|].
  unfold rights; simpl.
  destruct (job_of c dir total i q) as [line|req] eqn:Hjob; simpl.
  - apply IH. lia.
  - rewrite filter_cons. apply job_of_request in Hjob as (Hl & _).
    case_decide as Heq.
    + rewrite Hl in Heq. injection Heq. lia.
    + apply IH. lia.
Qed.

(** The requests carry the index of their package: the package at index
    [k] of [missing] gets one request when it can be built, and none
    otherwise. *)
Lemma jobs_label_count c dir total i missing k p :
  missing !! k = Some p →
  length (filter (λ r, req_Label r = JobLabel (i + k + 1) total p)
            (rights (jobs_of c dir total i missing)))
  = match job_of c dir total (i + k) p with inr _ => 1%nat | inl _ => 0%nat end.
Proof.
  revert i k. induction missing as [|q missing IH]; intros i k; [done|].
  destruct k as [|k]; simpl.
  - intros [= ->]. rewrite !Nat.add_0_r. unfold rights; simpl.
    destruct (job_of c dir total i p) as [line|req] eqn:Hjob; simpl.
    + fold (rights (jobs_of c dir total (S i) missing)).
      rewrite jobs_label_above by lia. done.
    + fold (rights (jobs_of c dir total (S i) missing)).
      rewrite filter_cons. apply job_of_request in Hjob as (Hl & _).
      case_decide; [|done]. simpl. by rewrite jobs_label_above by lia.
  - intros Hk. replace (i + S k + 1)%nat with (S i + k + 1)%nat by lia.
    replace (i + S k)%nat with (S i + k)%nat by lia.
    rewrite <- (IH (S i) k Hk). unfold rights; simpl.
    destruct (job_of c dir total i q) as [line|req] eqn:Hjob; simpl; [done|].
    rewrite filter_cons. apply job_of_request in Hjob as (Hl & _).
    case_decide as Heq; [|done]. rewrite Hl in Heq. injection Heq. lia.
Qed.

End Reconciliation.

(** *** Directory listings and base names *)

Lemma ioutil_ReadDir_NoDup dirname w files :
  ioutil_ReadDir dirname w = inr files → NoDup (fi_Name <$> files).
Proof.
  unfold ioutil_ReadDir. destruct (w_fs w !! dirname) as [entries|]; [|done].
  intros [= <-]. rewrite merge_sort_Permutation, <- list_fmap_compose.
  apply (NoDup_fst_map_to_list entries).
Qed.

Lemma ioutil_ReadDir_elem dirname w files fi :
  ioutil_ReadDir dirname w = inr files →
  fi ∈ files ↔
  ∃ f, fs_lookup (w_fs w) (mkPath dirname (fi_Name fi)) = Some f ∧ fi_Size fi = File_Size f.
Proof.
  unfold ioutil_ReadDir, fs_lookup; simpl.
  destruct (w_fs w !! dirname) as [entries|]; [|done].
  intros [= <-]. rewrite merge_sort_Permutation, list_elem_of_fmap. simpl. split.
  - intros ([n f] & -> & Hin). apply elem_of_map_to_list in Hin. by exists f.
  - intros (f & Hf & Hsz). exists (fi_Name fi, f). split.
    + destruct fi; unfold file_info; simpl in *. by rewrite Hsz.
    + by apply elem_of_map_to_list.
Qed.

Lemma list_ascii_of_string_app (a b : string) :
  list_ascii_of_string (a +:+ b) = list_ascii_of_string a ++ list_ascii_of_string b.
Proof. induction a as [|c a IH]; simpl; [done|]. by rewrite IH. Qed.

Lemma take_while_app_stop {A} (f : A → bool) l x l' :
  Forall (λ y, f y = true) l → f x = false →
  take_while f (l ++ x :: l') = l.
Proof.
  intros Hall Hx. induction Hall as [|y l Hy _ IH]; simpl.
  - by rewrite Hx.
  - by rewrite Hy, IH.
Qed.

(** The base name of a location that ends in a separator and a proper
    name is that name, whatever stands before. *)
Lemma filepath_Base_join (prefix name : string) :
  name ≠ "" →
  Forall (λ c, is_sep c = false) (list_ascii_of_string name) →
  filepath_Base (prefix +:+ "/" +:+ name) = name.
Proof.
  intros Hne Hname. unfold filepath_Base.
  destruct (prefix +:+ "/" +:+ name) as [|c0 s0] eqn:Hs.
  { destruct prefix; discriminate. }
  rewrite <- Hs. clear Hs c0 s0.
  rewrite !list_ascii_of_string_app. simpl.
  set (n := list_ascii_of_string name) in *.
  set (pre := list_ascii_of_string prefix).
  assert (Hrev : rev (pre ++ "/"%char :: n) = rev n ++ "/"%char :: rev pre).
  { rewrite rev_app_distr. simpl. by rewrite <- app_assoc. }
  assert (Hrn : Forall (λ c, negb (is_sep c) = true) (rev n)).
  { apply Forall_forall. intros x Hx.
    apply list_elem_of_In, in_rev, list_elem_of_In in Hx.
    by rewrite (proj1 (Forall_forall _ _) Hname x Hx). }
  assert (Hstrip : strip_trailing_sep (pre ++ "/"%char :: n) = pre ++ "/"%char :: n).
  { unfold strip_trailing_sep. rewrite Hrev.
    destruct (rev n) as [|c rn] eqn:Hc.
    - apply (f_equal (@rev _)) in Hc. rewrite rev_involutive in Hc. simpl in Hc.
      subst n. destruct name; [done|discriminate].
    - apply Forall_cons in Hrn as [Hsep _]. simpl.
      destruct (is_sep c); [done|].
      change (c :: rn ++ "/"%char :: rev pre) with ((c :: rn) ++ "/"%char :: rev pre).
      rewrite <- Hrev. apply rev_involutive. }
  rewrite Hstrip. unfold last_element. rewrite Hrev.
  rewrite (take_while_app_stop _ (rev n) "/"%char) by done.
  rewrite rev_involutive. subst n.
  destruct (list_ascii_of_string name) as [|c l] eqn:Hl.
  { destruct name; [done|discriminate]. }
  change (String c (string_of_list_ascii l)) with (string_of_list_ascii (c :: l)).
  rewrite <- Hl. apply string_of_list_ascii_of_string.
Qed.

Lemma take_while_all {A} (f : A → bool) l :
  Forall (λ y, f y = true) l → take_while f l = l.
Proof.
  induction 1 as [|y l Hy _ IH]; simpl; [done|]. by rewrite Hy, IH.
Qed.

(** The base name of a proper name is that name. *)
Lemma filepath_Base_plain (name : string) :
  name ≠ "" →
  Forall (λ c, is_sep c = false) (list_ascii_of_string name) →
  filepath_Base name = name.
Proof.
  intros Hne Hname. unfold filepath_Base.
  destruct name as [|a name]; [done|].
  set (n := list_ascii_of_string (String a name)) in *.
  assert (Hrn : Forall (λ c, negb (is_sep c) = true) (rev n)).
  { apply Forall_forall. intros x Hx.
    apply list_elem_of_In, in_rev, list_elem_of_In in Hx.
    by rewrite (proj1 (Forall_forall _ _) Hname x Hx). }
  assert (Hstrip : strip_trailing_sep n = n).
  { unfold strip_trailing_sep. destruct (rev n) as [|c rn] eqn:Hc.
    - apply (f_equal (@rev _)) in Hc. by rewrite rev_involutive in Hc.
    - apply Forall_cons in Hrn as [Hsep _]. simpl.
      destruct (is_sep c); [done|]. rewrite <- Hc. apply rev_involutive. }
  rewrite Hstrip. unfold last_element. rewrite take_while_all by done.
  rewrite rev_involutive. subst n. simpl.
  by rewrite string_of_list_ascii_of_string.
Qed.

Lemma filepath_Base_has_base (href name : string) :
  name ≠ "" →
  Forall (λ c, is_sep c = false) (list_ascii_of_string name) →
  has_base href name →
  filepath_Base href = name.
Proof.
  intros Hne Hname [->|[prefix ->]].
  - by apply filepath_Base_plain.
  - by apply filepath_Base_join.
Qed.

Lemma lefts_lookup {A B} (l : list (A + B)) k a :
  l !! k = Some (inl a) → a ∈ lefts l.
Proof.
  intros Hk. unfold lefts. apply list_elem_of_omap.
  exists (inl a). split; [|done]. by apply list_elem_of_lookup_2 with k.
Qed.

Lemma rights_lookup {A B} (l : list (A + B)) k b :
  l !! k = Some (inr b) → b ∈ rights l.
Proof.
  intros Hk. unfold rights. apply list_elem_of_omap.
  exists (inr b). split; [|done]. by apply list_elem_of_lookup_2 with k.
Qed.

Section ReconciliationTheorems.
Context `{env : Env}.

(** Only the entries that carry the name looked for take part in the
    search. *)
Lemma search_local_files_filter p fn path files w :
  search_local_files p fn path files w
  = search_local_files p fn path (filter (λ fi, fi_Name fi = fn) files) w.
Proof.
  revert w. induction files as [|fi files IH]; intros w; [done|].
  rewrite filter_cons. destruct (decide (fi_Name fi = fn)) as [Hn|Hn]; simpl.
  - rewrite !decide_True by done.
    repeat case_decide; try done. run. apply IH.
  - rewrite decide_False by done. apply IH.
Qed.

(** The request of a package that can be dispatched is among the
    requests the scheduling loop hands on. *)
Lemma schedule_jobs_dispatch c dir missing k p sum b w :
  missing !! k = Some p →
  url_Parse (urljoin (BaseURL c) (LocationHref p)) = None →
  pkg_Checksum p = inr sum →
  hex_DecodeString sum = inr b →
  ∃ reqs w' req,
    schedule_jobs c dir (length missing) 0 missing [] w = (Done reqs, w') ∧
    w_fs w' = w_fs w ∧
    req ∈ reqs ∧
    req_Label req = JobLabel (k + 1) (length missing) p ∧
    req_Filename req = filepath_Join dir (filepath_Base (LocationHref p)).
Proof.
  intros Hk Hurl Hsum Hhex. rewrite schedule_jobs_spec.
  pose proof (jobs_of_lookup c dir (length missing) 0 missing k p Hk) as Hjob.
  destruct (job_of c dir (length missing) (0 + k) p) as [line|req] eqn:Hreq.
  { exfalso. revert Hreq. unfold job_of, grab_NewRequest. by rewrite Hurl, Hsum, Hhex. }
  eexists _, _, req. split; [done|]. split; [done|].
  apply job_of_request in Hreq as (Hl & Hf & _).
  split_and!; [|done..]. simpl. by apply rights_lookup with k.
Qed.

Lemma schedule_jobs_one_request c dir missing k p sum b w :
  missing !! k = Some p →
  url_Parse (urljoin (BaseURL c) (LocationHref p)) = None →
  pkg_Checksum p = inr sum →
  hex_DecodeString sum = inr b →
  ∃ reqs w',
    schedule_jobs c dir (length missing) 0 missing [] w = (Done reqs, w') ∧
    length (filter (λ r, req_Label r = JobLabel (k + 1) (length missing) p) reqs) = 1%nat.
Proof.
  intros Hk Hurl Hsum Hhex. rewrite schedule_jobs_spec.
  eexists _, _. split; [done|]. simpl.
  pose proof (jobs_label_count c dir (length missing) 0 missing k p Hk) as Hcount.
  simpl in Hcount. rewrite Hcount.
  unfold job_of, grab_NewRequest. by rewrite Hurl, Hsum, Hhex.
Qed.

(** C1 (amended): a catalog entry whose local file is larger than the
    declared size is reported with an error line and is not found, the
    search changing nothing but the log; like every entry that is not
    found it is appended to the list of missing packages, once for its
    place in the catalog, the outer loop leaving the file system as it
    was; and when its request can be built, a request whose destination
    is the path of that local file is handed to the download. *)
Theorem C1_too_large_entry_is_scheduled c dir files p fi w :
  NoDup (fi_Name <$> files) →
  fi ∈ files →
  fi_Name fi = filepath_Base (LocationHref p) →
  PackageSize p < fi_Size fi →
  search_local_files p (filepath_Base (LocationHref p))
    (filepath_Join dir (filepath_Base (LocationHref p))) files w
  = (Done false,
     log_append
       [LogError None (MsgTooLarge (uint64 (fi_Size fi)) (uint64 (PackageSize p)) p)] w) ∧
  (∀ before after, ∃ total w1,
     build_missing dir files (before ++ p :: after) [] 0 w
     = (Done (missing_of dir files before w ++ p :: missing_of dir files after w, total), w1) ∧
     w_fs w1 = w_fs w) ∧
  (∀ missing k sum b,
     missing !! k = Some p →
     url_Parse (urljoin (BaseURL c) (LocationHref p)) = None →
     pkg_Checksum p = inr sum →
     hex_DecodeString sum = inr b →
     ∃ reqs w' req,
       schedule_jobs c dir (length missing) 0 missing [] w = (Done reqs, w') ∧
       req ∈ reqs ∧
       req_Label req = JobLabel (k + 1) (length missing) p ∧
       req_Filename req = filepath_Join dir (fi_Name fi)).
Proof.
  intros Hnd Hin Hfn Hsz.
  assert (Hrun : search_local_files p (filepath_Base (LocationHref p))
            (filepath_Join dir (filepath_Base (LocationHref p))) files w
          = (Done false,
             log_append
               [LogError None (MsgTooLarge (uint64 (fi_Size fi)) (uint64 (PackageSize p)) p)] w)).
  { rewrite (search_local_files_unique _ _ _ files fi w Hnd Hin Hfn). simpl.
    rewrite decide_True by done. rewrite decide_False by lia.
    rewrite decide_True by done. done. }
  split; [exact Hrun|]. split.
  - intros before after.
    destruct (missing_of_run dir files (before ++ p :: after) w) as (t & w1 & Hb & Hfs & _).
    exists t, w1. rewrite Hb. split; [|done].
    rewrite (missing_of_app dir files before p after w); [done|].
    by apply found_in_run in Hrun.
  - intros missing k sum b Hk Hurl Hsum Hhex.
    destruct (schedule_jobs_dispatch c dir missing k p sum b w Hk Hurl Hsum Hhex)
      as (reqs & w' & req & Hs & _ & Hreq & Hl & Hf).
    exists reqs, w', req. by rewrite Hfn.
Qed.


(** C4: for a catalog entry whose local file has the declared size, a
    checksum that cannot be computed and a checksum that does not
    validate (mismatch or any other error) are both reported with one
    error line and leave the entry not found; the entry is then
    appended to the list of missing packages once for its place in the
    catalog; and when its checksum was read and its request can be
    built, the scheduling loop makes exactly one request for it. *)
Theorem C4_unverifiable_entry_is_refetched c dir files p fi w :
  NoDup (fi_Name <$> files) →
  fi ∈ files →
  fi_Name fi = filepath_Base (LocationHref p) →
  fi_Size fi = PackageSize p →
  (∀ err, pkg_Checksum p = inl err →
     search_local_files p (filepath_Base (LocationHref p))
       (filepath_Join dir (filepath_Base (LocationHref p))) files w
     = (Done false, log_append [LogError (Some err) (MsgComputeChecksumFailed p)] w)) ∧
  (∀ sum err, pkg_Checksum p = inr sum →
     ValidateFileChecksum (filepath_Join dir (filepath_Base (LocationHref p)))
       sum (ChecksumType p) (w_fs w) = Some err →
     search_local_files p (filepath_Base (LocationHref p))
       (filepath_Join dir (filepath_Base (LocationHref p))) files w
     = (Done false,
        log_append
          [LogError (Some err)
             (if decide (err = ErrChecksumMismatch)
              then MsgChecksumValidationFailed p
              else MsgChecksumValidationError p)] w)) ∧
  ((∃ err, pkg_Checksum p = inl err) ∨
   (∃ sum err, pkg_Checksum p = inr sum ∧
      ValidateFileChecksum (filepath_Join dir (filepath_Base (LocationHref p)))
        sum (ChecksumType p) (w_fs w) = Some err) →
   ∀ before after, ∃ total w1,
     build_missing dir files (before ++ p :: after) [] 0 w
     = (Done (missing_of dir files before w ++ p :: missing_of dir files after w, total), w1) ∧
     w_fs w1 = w_fs w) ∧
  (∀ missing k sum b w1,
     missing !! k = Some p →
     url_Parse (urljoin (BaseURL c) (LocationHref p)) = None →
     pkg_Checksum p = inr sum →
     hex_DecodeString sum = inr b →
     ∃ reqs w2,
       schedule_jobs c dir (length missing) 0 missing [] w1 = (Done reqs, w2) ∧
       length (filter (λ r, req_Label r = JobLabel (k + 1) (length missing) p) reqs)
       = 1%nat).
Proof.
  intros Hnd Hin Hfn Hsz.
  assert (Hone : search_local_files p (filepath_Base (LocationHref p))
            (filepath_Join dir (filepath_Base (LocationHref p))) files w
          = search_local_files p (filepath_Base (LocationHref p))
              (filepath_Join dir (filepath_Base (LocationHref p))) [fi] w).
  { by apply search_local_files_unique. }
  assert (H1 : ∀ err, pkg_Checksum p = inl err →
     search_local_files p (filepath_Base (LocationHref p))
       (filepath_Join dir (filepath_Base (LocationHref p))) files w
     = (Done false, log_append [LogError (Some err) (MsgComputeChecksumFailed p)] w)).
  { intros err Hsum. rewrite Hone. simpl. rewrite !decide_True by done. by rewrite Hsum. }
  assert (H2 : ∀ sum err, pkg_Checksum p = inr sum →
     ValidateFileChecksum (filepath_Join dir (filepath_Base (LocationHref p)))
       sum (ChecksumType p) (w_fs w) = Some err →
     search_local_files p (filepath_Base (LocationHref p))
       (filepath_Join dir (filepath_Base (LocationHref p))) files w
     = (Done false,
        log_append
          [LogError (Some err)
             (if decide (err = ErrChecksumMismatch)
              then MsgChecksumValidationFailed p
              else MsgChecksumValidationError p)] w)).
  { intros sum err Hsum Hv. rewrite Hone. simpl. rewrite !decide_True by done.
    rewrite Hsum. run. rewrite Hv. by case_decide. }
  split; [exact H1|]. split; [exact H2|]. split.
  - intros Hbad before after.
    destruct (missing_of_run dir files (before ++ p :: after) w) as (t & w1 & Hb & Hfs & _).
    exists t, w1. rewrite Hb. split; [|done].
    rewrite (missing_of_app dir files before p after w); [done|].
    destruct Hbad as [(err & Hsum)|(sum & err & Hsum & Hv)].
    + by eapply found_in_run, H1.
    + by eapply found_in_run, H2.
  - intros missing k sum b w1. apply schedule_jobs_one_request.
Qed.

(** The one listed file with the base name of the package decides
    whether the package is found: by its size and by the checksum of the
    path of that name in the package directory. *)
Lemma found_in_at dir files p fi w :
  NoDup (fi_Name <$> files) →
  fi ∈ files →
  fi_Name fi = filepath_Base (LocationHref p) →
  found_in dir files p w = true ↔
  fi_Size fi = PackageSize p ∧
  ∃ sum, pkg_Checksum p = inr sum ∧
         ValidateFileChecksum (filepath_Join dir (filepath_Base (LocationHref p)))
           sum (ChecksumType p) (w_fs w) = None.
Proof.
  intros Hnd Hin Hfn. unfold found_in.
  rewrite (search_local_files_unique _ _ _ files fi w Hnd Hin Hfn). simpl.
  rewrite decide_True by done. repeat case_decide; run.
  - destruct (pkg_Checksum p) as [err|sum]; run.
    + split; [done|]. by intros (_ & ? & ? & _).
    + destruct (ValidateFileChecksum _ sum _ _) as [err|] eqn:Hv; run.
      * split; [by case_decide|]. intros (_ & sum' & [= <-] & Hv'). congruence.
      * split; [|done]. intros _. split; [done|]. by exists sum.
  - split; [done|]. intros [? _]. lia.
  - split; [done|]. intros [? _]. lia.
Qed.

(** C9: two catalog entries whose locations have the same proper name
    as last element, with or without directories before it, have that
    name as their local file name and the same path in the package
    directory.  The search compares the names of the listed files with
    it: with no file of that name neither entry is found, nothing is
    logged and both are appended to the missing packages, whatever else
    is listed; with a file of that name, that file alone decides for
    both entries, by its size and by the checksum of the one path of
    that name.  The requests made for the two entries are made, and
    have that one path as destination. *)
Theorem C9_match_by_base_name c dir files p q name w :
  name ≠ "" →
  Forall (λ ch, is_sep ch = false) (list_ascii_of_string name) →
  has_base (LocationHref p) name →
  has_base (LocationHref q) name →
  NoDup (fi_Name <$> files) →
  (filepath_Base (LocationHref p) = name ∧
   filepath_Base (LocationHref q) = name ∧
   filepath_Join dir (filepath_Base (LocationHref p)) = filepath_Join dir name ∧
   filepath_Join dir (filepath_Base (LocationHref q)) = filepath_Join dir name) ∧
  ((∀ fi, fi ∈ files → fi_Name fi ≠ name) →
   search_local_files p (filepath_Base (LocationHref p))
     (filepath_Join dir (filepath_Base (LocationHref p))) files w = (Done false, w) ∧
   search_local_files q (filepath_Base (LocationHref q))
     (filepath_Join dir (filepath_Base (LocationHref q))) files w = (Done false, w) ∧
   ∀ before after, ∃ total w1,
     build_missing dir files (before ++ p :: q :: after) [] 0 w
     = (Done (missing_of dir files before w ++ p :: q :: missing_of dir files after w,
              total), w1)) ∧
  (∀ fi, fi ∈ files → fi_Name fi = name →
   search_local_files p (filepath_Base (LocationHref p))
     (filepath_Join dir (filepath_Base (LocationHref p))) files w
   = search_local_files p name (filepath_Join dir name) [fi] w ∧
   search_local_files q (filepath_Base (LocationHref q))
     (filepath_Join dir (filepath_Base (LocationHref q))) files w
   = search_local_files q name (filepath_Join dir name) [fi] w ∧
   (found_in dir files p w = true ↔
    fi_Size fi = PackageSize p ∧
    ∃ sum, pkg_Checksum p = inr sum ∧
           ValidateFileChecksum (filepath_Join dir name) sum (ChecksumType p) (w_fs w) = None) ∧
   (found_in dir files q w = true ↔
    fi_Size fi = PackageSize q ∧
    ∃ sum, pkg_Checksum q = inr sum ∧
           ValidateFileChecksum (filepath_Join dir name) sum (ChecksumType q) (w_fs w) = None) ∧
   (found_in dir files p w = true → ∀ packages, p ∉ missing_of dir files packages w) ∧
   (found_in dir files p w = false → ∀ before after,
      missing_of dir files (before ++ p :: after) w
      = missing_of dir files before w ++ p :: missing_of dir files after w)) ∧
  (∀ missing kp kq sum_p b_p sum_q b_q,
     missing !! kp = Some p →
     missing !! kq = Some q →
     url_Parse (urljoin (BaseURL c) (LocationHref p)) = None →
     url_Parse (urljoin (BaseURL c) (LocationHref q)) = None →
     pkg_Checksum p = inr sum_p → hex_DecodeString sum_p = inr b_p →
     pkg_Checksum q = inr sum_q → hex_DecodeString sum_q = inr b_q →
     ∃ reqs w' rp rq,
       schedule_jobs c dir (length missing) 0 missing [] w = (Done reqs, w') ∧
       rp ∈ reqs ∧ rq ∈ reqs ∧
       req_Label rp = JobLabel (kp + 1) (length missing) p ∧
       req_Label rq = JobLabel (kq + 1) (length missing) q ∧
       req_Filename rp = filepath_Join dir name ∧
       req_Filename rq = filepath_Join dir name) ∧
  (∀ total i missing reqs w1 w2 rp rq ip iq np nq,
     schedule_jobs c dir total i missing [] w1 = (Done reqs, w2) →
     rp ∈ reqs → rq ∈ reqs →
     req_Label rp = JobLabel ip np p →
     req_Label rq = JobLabel iq nq q →
     req_Filename rp = filepath_Join dir name ∧
     req_Filename rq = filepath_Join dir name).
Proof.
  intros Hne Hname Hp Hq Hnd.
  assert (Bp : filepath_Base (LocationHref p) = name) by by apply filepath_Base_has_base.
  assert (Bq : filepath_Base (LocationHref q) = name) by by apply filepath_Base_has_base.
  split; [by rewrite Bp, Bq|]. split; [|split; [|split]].
  - intros Hno.
    assert (Hsp : search_local_files p (filepath_Base (LocationHref p))
              (filepath_Join dir (filepath_Base (LocationHref p))) files w = (Done false, w)).
    { apply search_local_files_no_match. by rewrite Bp. }
    assert (Hsq : search_local_files q (filepath_Base (LocationHref q))
              (filepath_Join dir (filepath_Base (LocationHref q))) files w = (Done false, w)).
    { apply search_local_files_no_match. by rewrite Bq. }
    split; [exact Hsp|]. split; [exact Hsq|]. intros before after.
    destruct (missing_of_run dir files (before ++ p :: q :: after) w) as (t & w1 & Hb & _).
    exists t, w1. rewrite Hb. f_equal. f_equal.
    rewrite (missing_of_app dir files before p (q :: after) w) by by apply found_in_run in Hsp.
    f_equal. f_equal.
    by rewrite (missing_of_app dir files [] q after w) by by apply found_in_run in Hsq.
  - intros fi Hin Hfn. split_and!.
    + rewrite Bp. apply search_local_files_unique; done.
    + rewrite Bq. apply search_local_files_unique; done.
    + rewrite <- Bp. apply found_in_at; [done..|by rewrite Bp].
    + rewrite <- Bq. apply found_in_at; [done..|by rewrite Bq].
    + intros Hfound packages. rewrite missing_of_filter. intros Hm.
      apply list_elem_of_filter in Hm as [Hf _]. congruence.
    + intros Hnf before after. by apply missing_of_app.
  - intros missing kp kq sum_p b_p sum_q b_q Hkp Hkq Hup Huq Hsp Hbp Hsq Hbq.
    destruct (schedule_jobs_dispatch c dir missing kp p sum_p b_p w Hkp Hup Hsp Hbp)
      as (reqs & w' & rp & Hs & _ & Hrp & Hlp & Hfp).
    destruct (schedule_jobs_dispatch c dir missing kq q sum_q b_q w Hkq Huq Hsq Hbq)
      as (reqs' & w'' & rq & Hs' & _ & Hrq & Hlq & Hfq).
    rewrite Hs in Hs'. injection Hs' as <- <-.
    exists reqs, w', rp, rq. rewrite Hfp, Hfq, Bp, Bq. by split_and!.
  - intros total i missing reqs w1 w2 rp rq ip iq np nq Hs Hrp Hrq Hlp Hlq.
    rewrite schedule_jobs_spec in Hs. injection Hs as <- _. simpl in Hrp, Hrq.
    apply rights_jobs_of_elem in Hrp as (kp & p' & _ & Hjp).
    apply rights_jobs_of_elem in Hrq as (kq & q' & _ & Hjq).
    apply job_of_request in Hjp as (Hlp' & Hfp & _).
    apply job_of_request in Hjq as (Hlq' & Hfq & _).
    rewrite Hlp' in Hlp. rewrite Hlq' in Hlq.
    injection Hlp as _ _ ->. injection Hlq as _ _ ->.
    by rewrite Hfp, Hfq, Bp, Bq.
Qed.

End ReconciliationTheorems.

(** *** The download and the handling of its outcomes *)

Lemma insert_at_Permutation {A} i (x : A) l : insert_at i x l ≡ₚ x :: l.
Proof.
  revert i. induction l as [|y l IH]; intros [|i]; simpl; try done.
  rewrite IH. apply Permutation_swap.
Qed.

Lemma completion_order_Permutation picks reqs : completion_order picks reqs ≡ₚ reqs.
Proof.
  revert picks. induction reqs as [|req reqs IH]; intros picks; simpl; [done|].
  by rewrite insert_at_Permutation, IH.
Qed.

Lemma filter_label_fmap (label : Label) (responses : list Response) :
  length (filter (λ resp, req_Label (resp_Request resp) = label) responses)
  = length (filter (λ r, req_Label r = label) (resp_Request <$> responses)).
Proof.
  induction responses as [|resp responses IH]; [done|].
  rewrite fmap_cons, !filter_cons. case_decide; simpl; by rewrite IH.
Qed.

Section Download.
Context `{env : Env}.

(** Every request handed to the transfers comes back as one outcome,
    failed or not. *)
Lemma transfer_all_spec reqs w :
  ∃ responses w',
    transfer_all reqs w = (Done responses, w') ∧
    resp_Request <$> responses = reqs ∧
    Forall (λ resp, resp_Filename resp = req_Filename (resp_Request resp)) responses.
Proof.
  revert w. induction reqs as [|req reqs IH]; intros w; simpl.
  - by exists [], w.
  - run. destruct (grab_transfer req w) as [err w1].
    destruct (IH w1) as (rs & w' & -> & Hreqs & Hnames).
    eexists (_ :: rs), w'. split; [done|]. split.
    + rewrite fmap_cons. simpl. by rewrite Hreqs.
    + by constructor.
Qed.

Lemma download_spec reqs threads w :
  ∃ responses w',
    download reqs threads w = (Done responses, w') ∧
    resp_Request <$> responses ≡ₚ reqs ∧
    Forall (λ resp, resp_Filename resp = req_Filename (resp_Request resp)) responses.
Proof.
  unfold download.
  destruct (transfer_all_spec (completion_order (completion_picks threads reqs) reqs) w)
    as (rs & w' & Hrun & Hreqs & Hnames).
  exists rs, w'. split; [done|]. split; [|done].
  rewrite Hreqs. apply completion_order_Permutation.
Qed.

(** C3 (amended): the scheduling loop makes a request of every missing
    package or logs one error line for it; the download yields one
    outcome for every request; so the outcomes and the packages stopped
    before dispatch together are as many as the missing packages, and
    the package at each index has exactly one outcome, or no outcome and
    its error line. *)
Theorem C3_one_outcome_or_failure_per_job c dir missing w :
  ∃ reqs lines responses w2,
    schedule_jobs c dir (length missing) 0 missing [] w = (Done reqs, log_append lines w) ∧
    download reqs DownloadThreads (log_append lines w) = (Done responses, w2) ∧
    resp_Request <$> responses ≡ₚ reqs ∧
    (length responses + length lines = length missing)%nat ∧
    Forall (λ line, ∃ p, p ∈ missing ∧ pre_dispatch_failure p line) lines ∧
    ∀ k p, missing !! k = Some p →
      let outcomes :=
        filter (λ resp, req_Label (resp_Request resp) = JobLabel (k + 1) (length missing) p)
          responses in
      length outcomes = 1%nat ∨
      (length outcomes = 0%nat ∧ ∃ line, line ∈ lines ∧ pre_dispatch_failure p line).
Proof.
  set (jobs := jobs_of c dir (length missing) 0 missing).
  destruct (download_spec (rights jobs) DownloadThreads (log_append (lefts jobs) w))
    as (responses & w2 & Hd & Hperm & _).
  exists (rights jobs), (lefts jobs), responses, w2.
  split; [by rewrite schedule_jobs_spec|]. split; [exact Hd|]. split; [exact Hperm|]. split.
  - rewrite <- (length_fmap resp_Request responses), Hperm.
    rewrite Nat.add_comm, lefts_rights_length. apply jobs_of_length.
  - split.
    { apply Forall_forall. intros line Hin.
      apply lefts_jobs_of_elem in Hin as (k & p & Hk & Hjob).
      exists p. split; [by apply list_elem_of_lookup_2 with k|].
      by eapply job_of_failure. }
    intros k p Hk outcomes. subst outcomes.
    rewrite filter_label_fmap, Hperm.
    pose proof (jobs_label_count c dir (length missing) 0 missing k p Hk) as Hcount.
    pose proof (jobs_of_lookup c dir (length missing) 0 missing k p Hk) as Hjob.
    fold jobs in Hcount, Hjob. simpl in Hcount, Hjob. rewrite Hcount.
    destruct (job_of c dir (length missing) k p) as [line|req] eqn:Hjk; [right|by left].
    split; [done|]. exists line. split.
    + by apply lefts_lookup with k.
    + by eapply job_of_failure.
Qed.

End Download.

(** *** Removing a file *)

Lemma os_Remove_done path f w :
  fs_lookup (w_fs w) path = Some f → f_immutable f = false →
  ∃ w', os_Remove path w = (None, w') ∧
        fs_lookup (w_fs w') path = None ∧
        (∀ path', path' ≠ path → fs_lookup (w_fs w') path' = fs_lookup (w_fs w) path') ∧
        w_log w' = w_log w ∧ w_open w' = w_open w ∧ w_index w' = w_index w.
Proof.
  unfold fs_lookup, os_Remove. destruct path as [d n]; simpl.
  destruct (w_fs w !! d) as [entries|] eqn:Hd; [|done]. simpl.
  intros Hn Himm. rewrite Hn, Himm.
  eexists. split; [done|]. simpl. split_and!; [|intros [d' n'] Hne; simpl|done..].
  - rewrite lookup_insert_eq. simpl. apply lookup_delete_eq.
  - destruct (decide (d = d')) as [<-|Hdd].
    + rewrite lookup_insert_eq, Hd. simpl. apply lookup_delete_ne. congruence.
    + by rewrite lookup_insert_ne.
Qed.

Lemma os_Remove_immutable path f w :
  fs_lookup (w_fs w) path = Some f → f_immutable f = true →
  os_Remove path w = (Some ErrPermission, w).
Proof.
  unfold fs_lookup, os_Remove.
  destruct (w_fs w !! p_dir path) as [entries|]; [|done]. simpl.
  intros Hn Himm. by rewrite Hn, Himm.
Qed.

Section Outcomes.
Context `{env : Env}.

Lemma handle_response_total c keyring resp w :
  ∃ f w', handle_response c keyring resp w = (Done f, w').
Proof.
  unfold handle_response.
  destruct (resp_Error resp); run; [by eauto|].
  destruct (GPGCheck c); run; [|by eauto].
  destruct (os_Open (resp_Filename resp) w) as [[err|f] w1]; [by eauto|].
  destruct (rpm_GPGCheck f keyring); run; [|by eauto].
  destruct (os_Remove _ _) as [[err|] w2]; by eauto.
Qed.

Lemma handle_responses_app c keyring l1 l2 deferred w :
  handle_responses c keyring (l1 ++ l2) deferred w
  = bind (handle_responses c keyring l1 deferred)
      (λ deferred', handle_responses c keyring l2 deferred') w.
Proof.
  revert deferred w. induction l1 as [|resp l1 IH]; intros deferred w; [done|].
  simpl. unfold bind.
  destruct (handle_response_total c keyring resp w) as (f & w' & ->).
  by rewrite IH.
Qed.

(** The loop over the outcomes reaches its end, whatever they are. *)
Lemma handle_responses_total c keyring responses deferred w :
  ∃ deferred' w', handle_responses c keyring responses deferred w = (Done deferred', w').
Proof.
  revert deferred w. induction responses as [|resp responses IH]; intros deferred w; simpl.
  - by eauto.
  - unfold bind. destruct (handle_response_total c keyring resp w) as (f & w' & ->).
    apply IH.
Qed.

Lemma Sync_fetch_total c dir keyring files packages w :
  ∃ deferred w', Sync_fetch c dir keyring files packages w = (Done deferred, w').
Proof.
  unfold Sync_fetch. run.
  destruct (build_missing_spec dir files packages [] 0
              (add_log (LogDebug (MsgChecking dir)) w)) as (t & ls & ->).
  simpl. rewrite schedule_jobs_spec.
  match goal with |- context [download ?r ?n ?w0] =>
    destruct (download_spec r n w0) as (rs & w2 & -> & _) end.
  apply handle_responses_total.
Qed.

Lemma add_packages_no_Fail wr files w e : (add_packages wr files w).1 ≠ Fail e.
Proof.
  revert w. induction files as [|f files IH]; intros w; simpl; [done|].
  run. destruct (rpm_OpenPackageFile f w) as [p [err|]]; simpl; [done|]. apply IH.
Qed.

Lemma rebuild_index_no_Fail dir w e : (rebuild_index dir w).1 ≠ Fail e.
Proof.
  unfold rebuild_index. run.
  destruct (createrepo _ w) as [[err|wr] w1]; [done|].
  destruct (filepath_Glob _ w1) as [files [err|]]; simpl; [done|].
  match goal with |- context [add_packages ?a ?b ?c] =>
    pose proof (add_packages_no_Fail a b c e) as Hno;
    destruct (add_packages a b c) as [r w2] end.
  done.
Qed.

Lemma Sync_mirror_no_Fail c dir keyring files packages w e :
  (Sync_mirror c dir keyring files packages w).1 ≠ Fail e.
Proof.
  unfold Sync_mirror, bind.
  destruct (Sync_fetch_total c dir keyring files packages w) as (d & w' & ->).
  unfold defer. pose proof (rebuild_index_no_Fail dir w' e) as Hno.
  by destruct (rebuild_index dir w').
Qed.


(** C10: with the signature check on, a key ring that cannot be loaded
    makes [Sync] return that error at once: the world is the one it was
    called in, so no metadata was cached, no directory made, nothing
    logged and nothing downloaded. *)
Theorem C10_keyring_failure_returns_first c cachedir dir err w :
  GPGCheck c = true →
  OpenKeyRing (GPGKey c) (w_fs w) = inl err →
  Sync c cachedir dir w = (Fail err, w).
Proof.
  intros Hgpg Hkey. unfold Sync, Sync_load. rewrite Hgpg. run. by rewrite Hkey.
Qed.

End Outcomes.

(** *** The names that match "*.rpm" *)

Lemma glob_match_star_unfold lit l :
  glob_match ("*"%char :: lit) l
  = glob_match lit l ||
    match l with
    | [] => false
    | d :: l' => negb (is_sep d) && glob_match ("*"%char :: lit) l'
    end.
Proof. by destruct l. Qed.

Lemma glob_match_literal lit l :
  Forall (λ c, Ascii.eqb c "*"%char = false) lit →
  glob_match lit l = true ↔ l = lit.
Proof.
  intros Hlit. revert l. induction Hlit as [|c lit Hc _ IH]; intros l; simpl.
  - by destruct l.
  - rewrite Hc. destruct l as [|d l]; [done|].
    rewrite andb_true_iff, IH, Ascii.eqb_eq. split.
    + by intros [-> ->].
    + by intros [= -> ->].
Qed.

Lemma glob_match_star lit l :
  Forall (λ c, Ascii.eqb c "*"%char = false) lit →
  glob_match ("*"%char :: lit) l = true ↔
  ∃ stem, l = stem ++ lit ∧ Forall (λ c, is_sep c = false) stem.
Proof.
  intros Hlit. induction l as [|d l IH]; rewrite glob_match_star_unfold.
  - rewrite orb_false_r, glob_match_literal by done. split.
    + intros <-. by exists [].
    + intros (stem & Heq & _). symmetry in Heq. by apply app_eq_nil in Heq as [_ ->].
  - rewrite orb_true_iff, andb_true_iff, negb_true_iff, IH, glob_match_literal by done.
    split.
    + intros [<-|(Hd & stem & -> & Hstem)].
      * by exists [].
      * exists (d :: stem). split; [done|]. by constructor.
    + intros ([|d' stem] & Heq & Hstem); simpl in Heq.
      * by left.
      * injection Heq as <- ->. apply Forall_cons in Hstem as [Hd Hstem].
        right. split; [done|]. by exists stem.
Qed.

Lemma filepath_Match_rpm name : filepath_Match "*.rpm" name = true ↔ rpm_name name.
Proof.
  unfold filepath_Match, rpm_name.
  change (list_ascii_of_string "*.rpm")
    with ("*"%char :: list_ascii_of_string ".rpm").
  rewrite glob_match_star by (by repeat constructor). split.
  - intros (stem & Heq & Hstem). exists (string_of_list_ascii stem). split.
    + rewrite <- (string_of_list_ascii_of_string name), Heq.
      rewrite <- (list_ascii_of_string_of_list_ascii stem) at 1.
      rewrite <- list_ascii_of_string_app. by rewrite string_of_list_ascii_of_string.
    + by rewrite list_ascii_of_string_of_list_ascii.
  - intros (stem & -> & Hstem). exists (list_ascii_of_string stem).
    by rewrite list_ascii_of_string_app.
Qed.

(** [filepath.Glob] on the pattern of [Sync]: each file of the package
    directory with a name in "*.rpm", once. *)
Lemma filepath_Glob_rpm dir w :
  ∃ paths,
    filepath_Glob (filepath_Join dir "/*.rpm") w = (paths, None) ∧
    NoDup paths ∧
    ∀ path, path ∈ paths ↔
      ∃ name f, path = mkPath dir name ∧ rpm_name name ∧
                fs_lookup (w_fs w) path = Some f.
Proof.
  unfold filepath_Glob, fs_lookup. simpl.
  destruct (w_fs w !! dir) as [entries|] eqn:Hd.
  - eexists. split; [done|]. split.
    + apply NoDup_fmap_2; [by intros ?? [= ->]|].
      rewrite merge_sort_Permutation. apply NoDup_filter, NoDup_fst_map_to_list.
    + intros path. rewrite list_elem_of_fmap. split.
      * intros (name & -> & Hin). rewrite merge_sort_Permutation in Hin.
        apply list_elem_of_filter in Hin as [Hm Hin].
        apply list_elem_of_fmap in Hin as ([n f] & -> & Hin).
        apply elem_of_map_to_list in Hin. exists n, f. simpl in *.
        rewrite Hd. simpl. split; [done|]. split; [|done]. by apply filepath_Match_rpm.
      * intros (name & f & -> & Hname & Hf). simpl in Hf. rewrite Hd in Hf. simpl in Hf.
        exists name. split; [done|]. rewrite merge_sort_Permutation.
        apply list_elem_of_filter. split; [by apply filepath_Match_rpm|].
        apply list_elem_of_fmap. exists (name, f). split; [done|].
        by apply elem_of_map_to_list.
  - exists []. split; [done|]. split; [constructor|].
    intros path. split; [by intros ?%elem_of_nil|].
    intros (name & f & -> & _ & Hf). simpl in Hf. by rewrite Hd in Hf.
Qed.

(** *** The index *)

Lemma index_append_nil w : index_append [] w = w.
Proof. destruct w; unfold index_append; simpl. by rewrite app_nil_r. Qed.

Lemma index_append_app l1 l2 w :
  index_append l2 (index_append l1 w) = index_append (l1 ++ l2) w.
Proof. unfold index_append; simpl. by rewrite app_assoc. Qed.

(** The deferred [Close]s leave the index, the files and the log as
    they are. *)
Lemma close_all_keeps deferred w :
  w_index (close_all deferred w) = w_index w ∧
  w_index_closed (close_all deferred w) = w_index_closed w ∧
  w_fs (close_all deferred w) = w_fs w ∧
  w_log (close_all deferred w) = w_log w.
Proof.
  revert w. induction deferred as [|f deferred IH]; intros w; [done|].
  unfold close_all. simpl. fold (close_all deferred (os_Close f w)).
  destruct (IH (os_Close f w)) as (H1 & H2 & H3 & H4).
  by rewrite H1, H2, H3, H4.
Qed.

Section Index.
Context `{env : Env}.

Lemma rpm_OpenPackageFile_fs path w1 w2 :
  w_fs w1 = w_fs w2 → rpm_OpenPackageFile path w1 = rpm_OpenPackageFile path w2.
Proof. unfold rpm_OpenPackageFile. by intros ->. Qed.

Lemma rpm_OpenPackageFile_cases path w :
  (∃ pk, rpm_OpenPackageFile path w = (Some pk, None)) ∨
  (∃ err, rpm_OpenPackageFile path w = (None, Some err)).
Proof.
  unfold rpm_OpenPackageFile.
  destruct (fs_lookup (w_fs w) path) as [f|]; [|by eauto].
  destruct (f_readable f); [|by eauto].
  destruct (rpm_ReadPackageFile f); by eauto.
Qed.

(** When every file parses, every file is written, in order. *)
Lemma add_packages_all wr files added w :
  Forall2 (parses_to w) files added →
  add_packages wr files w = (Done tt, index_append added w).
Proof.
  intros Hall. revert added w Hall.
  induction files as [|f files IH]; intros added w Hall.
  - apply Forall2_nil_inv_l in Hall as ->. simpl. by rewrite index_append_nil.
  - apply Forall2_cons_inv_l in Hall as (pk & added' & Hpk & Hall & ->).
    simpl. run. unfold parses_to in Hpk. rewrite Hpk. simpl.
    change (add_packages wr files (index_append [pk] w)
            = (Done tt, index_append (pk :: added') w)).
    rewrite (IH added' (index_append [pk] w)).
    + by rewrite index_append_app.
    + eapply Forall2_impl; [exact Hall|]. intros path pk' Hp.
      unfold parses_to in *. by rewrite <- Hp.
Qed.

(** The first file that does not parse ends the loop with a panic: the
    files before it were written, no file after it is. *)
Lemma add_packages_first_failure wr before bad after added err w :
  Forall2 (parses_to w) before added →
  rpm_OpenPackageFile bad w = (None, Some err) →
  add_packages wr (before ++ bad :: after) w = (Panic err, index_append added w).
Proof.
  intros Hall Hbad. revert added w Hall Hbad.
  induction before as [|f before IH]; intros added w Hall Hbad.
  - apply Forall2_nil_inv_l in Hall as ->. simpl. run. rewrite Hbad. simpl.
    by rewrite index_append_nil.
  - apply Forall2_cons_inv_l in Hall as (pk & added' & Hpk & Hall & ->).
    simpl. run. unfold parses_to in Hpk. rewrite Hpk. simpl.
    change (add_packages wr (before ++ bad :: after) (index_append [pk] w)
            = (Panic err, index_append (pk :: added') w)).
    rewrite (IH added' (index_append [pk] w)).
    + by rewrite index_append_app.
    + eapply Forall2_impl; [exact Hall|]. intros path pk' Hp.
      unfold parses_to in *. by rewrite <- Hp.
    + by rewrite <- Hbad.
Qed.

(** A list of files parses as a whole, or has a first file that does
    not. *)
Lemma parse_all_or_first (files : list Path) w :
  (∃ added, Forall2 (parses_to w) files added) ∨
  (∃ before bad after added err,
     files = before ++ bad :: after ∧
     Forall2 (parses_to w) before added ∧
     rpm_OpenPackageFile bad w = (None, Some err)).
Proof.
  induction files as [|f files IH].
  - left. by exists [].
  - destruct (rpm_OpenPackageFile_cases f w) as [(pk & Hpk)|(err & Herr)].
    + destruct IH as [(added & Hall)|(before & bad & after & added & err & -> & Hall & Hbad)].
      * left. exists (pk :: added). by constructor.
      * right. exists (f :: before), bad, after, (pk :: added), err.
        split; [done|]. split; [by constructor|done].
    + right. exists [], f, files, [], err. split; [done|]. split; [constructor|done].
Qed.

(** [rebuild_index] once the index writer is there. *)
Lemma rebuild_index_run dir w wr w1 paths :
  createrepo (filepath_Join dir "/repodata") w = (inr wr, w1) →
  filepath_Glob (filepath_Join dir "/*.rpm") w1 = (paths, None) →
  rebuild_index dir w
  = defer (Writer_Close wr)
      (add_packages wr paths) (log_append [LogDebug (MsgInserting (length paths))] w1).
Proof.
  intros Hc Hg. unfold rebuild_index, bind, call, read, defer, Dprintf, PanicOn, ret.
  rewrite Hc. simpl. by rewrite Hg.
Qed.

(** C6: for a package directory whose name holds no pattern byte,
    once the index writer is open and when every file that is then in
    the package directory under a name matching "*.rpm" parses: the
    files listed for the index are exactly those files, each once; the
    index is completed and closed; the records written are those of the
    listed files, one for each and in the order of the listing, and no
    other, so that a file that is in the directory at that time is in
    the index however it came there.  [Sync] hands nothing of the
    download to the index but the world the download left, and when
    that world is the one in which the writer was opened, the index of
    [Sync] is this one. *)
Theorem C6_index_is_fresh_listing c dir keyring files packages w0 w wr w1 :
  glob_literal dir →
  createrepo (filepath_Join dir "/repodata") w = (inr wr, w1) →
  (∀ name f, rpm_name name → fs_lookup (w_fs w1) (mkPath dir name) = Some f →
     ∃ pk, parses_to w1 (mkPath dir name) pk) →
  ∃ paths added,
    filepath_Glob (filepath_Join dir "/*.rpm") w1 = (paths, None) ∧
    NoDup paths ∧
    (∀ path, path ∈ paths ↔
       ∃ name f, path = mkPath dir name ∧ rpm_name name ∧
                 fs_lookup (w_fs w1) path = Some f) ∧
    rebuild_index dir w
    = (Done tt,
       Writer_Close wr
         (index_append added (log_append [LogDebug (MsgInserting (length paths))] w1))) ∧
    w_index (rebuild_index dir w).2 = w_index w1 ++ added ∧
    w_index_closed (rebuild_index dir w).2 = true ∧
    Forall2 (parses_to w1) paths added ∧
    (∀ name f, rpm_name name → fs_lookup (w_fs w1) (mkPath dir name) = Some f →
       ∃ pk, parses_to w1 (mkPath dir name) pk ∧ pk ∈ added) ∧
    (∀ pk, pk ∈ added →
       ∃ name f, rpm_name name ∧ fs_lookup (w_fs w1) (mkPath dir name) = Some f ∧
                 parses_to w1 (mkPath dir name) pk) ∧
    (∃ deferred w_fetched,
       Sync_fetch c dir keyring files packages w0 = (Done deferred, w_fetched) ∧
       Sync_mirror c dir keyring files packages w0
       = defer (close_all deferred) (rebuild_index dir) w_fetched) ∧
    (∀ deferred,
       Sync_fetch c dir keyring files packages w0 = (Done deferred, w) →
       (Sync_mirror c dir keyring files packages w0).1 = Done tt ∧
       w_index (Sync_mirror c dir keyring files packages w0).2 = w_index w1 ++ added).
Proof.
  intros _ Hc Hparse.
  destruct (filepath_Glob_rpm dir w1) as (paths & Hg & Hnd & Hpaths).
  pose proof (rebuild_index_run dir w wr w1 paths Hc Hg) as Hrun.
  set (w2 := log_append _ w1) in Hrun.
  assert (Hsame : ∀ path pk, parses_to w2 path pk ↔ parses_to w1 path pk).
  { intros path pk. unfold parses_to.
    by rewrite (rpm_OpenPackageFile_fs path w2 w1). }
  assert (Hall : ∃ added, Forall2 (parses_to w2) paths added).
  { destruct (parse_all_or_first paths w2)
      as [Hall|(before & bad & after & added & err & -> & _ & Hbad)]; [done|].
    exfalso.
    destruct (proj1 (Hpaths bad)) as (name & f & -> & Hname & Hf);
      [apply elem_of_app; right; left|].
    destruct (Hparse name f Hname Hf) as (pk & Hpk).
    apply Hsame in Hpk. unfold parses_to in Hpk. congruence. }
  destruct Hall as (added & Hall).
  assert (Hall1 : Forall2 (parses_to w1) paths added).
  { eapply Forall2_impl; [exact Hall|]. intros ??. apply Hsame. }
  assert (Hr : rebuild_index dir w
               = (Done tt, Writer_Close wr (index_append added w2))).
  { rewrite Hrun. unfold defer. by rewrite (add_packages_all wr paths added w2 Hall). }
  exists paths, added.
  split; [exact Hg|]. split; [exact Hnd|]. split; [exact Hpaths|].
  split; [exact Hr|]. rewrite Hr. split; [done|]. split; [done|].
  split; [exact Hall1|]. split; [|split; [|split]].
  - intros name f Hname Hf.
    assert (Hin : mkPath dir name ∈ paths).
    { apply Hpaths. by exists name, f. }
    apply list_elem_of_lookup in Hin as [i Hi].
    destruct (Forall2_lookup_l _ _ _ _ _ Hall1 Hi) as (pk & Hpki & Hpk).
    exists pk. split; [done|]. by apply list_elem_of_lookup_2 with i.
  - intros pk Hin. apply list_elem_of_lookup in Hin as [i Hi].
    destruct (Forall2_lookup_r _ _ _ _ _ Hall1 Hi) as (path & Hpi & Hpk).
    apply list_elem_of_lookup_2 in Hpi.
    apply Hpaths in Hpi as (name & f & -> & Hname & Hf). by exists name, f.
  - destruct (Sync_fetch_total c dir keyring files packages w0) as (d & wf & Hf).
    exists d, wf. split; [exact Hf|]. unfold Sync_mirror, bind. by rewrite Hf.
  - intros deferred Hf. unfold Sync_mirror, bind. rewrite Hf. unfold defer.
    rewrite Hr. simpl. split; [done|].
    by rewrite (proj1 (close_all_keeps deferred _)).
Qed.

(** C7: once the index writer is open, a listed file that does not
    parse makes the index loop panic at the first such file: the files
    listed before it were written, none after it is, and the panic is
    the result of [Sync_mirror] and of [Sync], which therefore neither
    returns nil nor goes on to the next file. *)
Theorem C7_parse_failure_aborts_sync
    c cachedir dir keyring files packages wl w0 deferred w wr w1 path err :
  Sync_load c cachedir dir wl = (Done (keyring, files, packages), w0) →
  Sync_fetch c dir keyring files packages w0 = (Done deferred, w) →
  createrepo (filepath_Join dir "/repodata") w = (inr wr, w1) →
  path ∈ (filepath_Glob (filepath_Join dir "/*.rpm") w1).1 →
  rpm_OpenPackageFile path w1 = (None, Some err) →
  ∃ before bad after added err',
    (filepath_Glob (filepath_Join dir "/*.rpm") w1).1 = before ++ bad :: after ∧
    Forall2 (parses_to w1) before added ∧
    rpm_OpenPackageFile bad w1 = (None, Some err') ∧
    (rebuild_index dir w).1 = Panic err' ∧
    w_index (rebuild_index dir w).2 = w_index w1 ++ added ∧
    (Sync_mirror c dir keyring files packages w0).1 = Panic err' ∧
    (Sync c cachedir dir wl).1 = Panic err'.
Proof.
  intros Hload Hfetch Hc Hin Hbad.
  destruct (filepath_Glob_rpm dir w1) as (paths & Hg & _ & _).
  rewrite Hg in *. simpl in Hin.
  pose proof (rebuild_index_run dir w wr w1 paths Hc Hg) as Hrun.
  set (w2 := log_append _ w1) in Hrun.
  assert (Hsame : ∀ p, rpm_OpenPackageFile p w2 = rpm_OpenPackageFile p w1).
  { intros p. by apply rpm_OpenPackageFile_fs. }
  destruct (parse_all_or_first paths w2)
    as [(added & Hall)|(before & bad & after & added & err' & -> & Hall & Hbad')].
  - exfalso. apply list_elem_of_lookup in Hin as [i Hi].
    destruct (Forall2_lookup_l _ _ _ _ _ Hall Hi) as (pk & _ & Hpk).
    unfold parses_to in Hpk. rewrite Hsame in Hpk. congruence.
  - exists before, bad, after, added, err'.
    assert (Hr : rebuild_index dir w
                 = (Panic err', Writer_Close wr (index_append added w2))).
    { rewrite Hrun. unfold defer.
      by rewrite (add_packages_first_failure wr before bad after added err' w2 Hall Hbad'). }
    assert (Hm : Sync_mirror c dir keyring files packages w0
                 = (Panic err',
                    close_all deferred (Writer_Close wr (index_append added w2)))).
    { unfold Sync_mirror, bind. rewrite Hfetch. unfold defer. by rewrite Hr. }
    split; [done|]. split.
    { eapply Forall2_impl; [exact Hall|]. intros p pk Hp.
      unfold parses_to in *. by rewrite <- Hsame. }
    split; [by rewrite <- Hsame|].
    rewrite Hr, Hm. split; [done|]. split; [done|]. split; [done|].
    unfold Sync, bind. rewrite Hload. by rewrite Hm.
Qed.

End Index.

(** *** Failed downloads and the rest of the run *)

Lemma os_Remove_log path w : w_log (os_Remove path w).2 = w_log w.
Proof.
  unfold os_Remove. destruct (w_fs w !! p_dir path) as [entries|]; [|done].
  destruct (entries !! p_elem path) as [f|]; [|done].
  by destruct (f_immutable f).
Qed.

Section FailedOutcomes.
Context `{env : Env}.

(** The loop over the outcomes only adds lines to the log. *)
Lemma handle_response_log c keyring resp w f w' :
  handle_response c keyring resp w = (Done f, w') →
  ∃ lines, w_log w' = w_log w ++ lines.
Proof.
  unfold handle_response.
  destruct (resp_Error resp); run; [intros [= <- <-]; by eexists|].
  destruct (GPGCheck c); run; [|intros [= <- <-]; exists []; by rewrite app_nil_r].
  unfold os_Open. destruct (fs_lookup (w_fs w) (resp_Filename resp)) as [file|]; run;
    [|intros [= <- <-]; by eexists].
  destruct (f_readable file); run; [|intros [= <- <-]; by eexists].
  destruct (rpm_GPGCheck _ keyring); run;
    [|intros [= <- <-]; exists []; by rewrite app_nil_r].
  match goal with |- context [os_Remove ?p ?w0] =>
    pose proof (os_Remove_log p w0) as Hlog;
    destruct (os_Remove p w0) as [r w1] end.
  simpl in Hlog. destruct r; run; intros [= <- <-]; simpl; rewrite Hlog; simpl.
  - eexists. by rewrite <- app_assoc.
  - by eexists.
Qed.

Lemma handle_responses_log c keyring responses deferred w deferred' w' :
  handle_responses c keyring responses deferred w = (Done deferred', w') →
  ∃ lines, w_log w' = w_log w ++ lines.
Proof.
  revert deferred w. induction responses as [|resp responses IH]; intros deferred w.
  - simpl. intros [= <- <-]. exists []. by rewrite app_nil_r.
  - cbn [handle_responses]. unfold bind.
    destruct (handle_response_total c keyring resp w) as (f & w1 & Hone). rewrite Hone.
    intros Hrest. apply IH in Hrest as (l2 & ->).
    apply handle_response_log in Hone as (l1 & ->).
    exists (l1 ++ l2). by rewrite app_assoc.
Qed.

(** [rebuild_index] completes exactly when the index writer opens and
    every file then in the package directory under a name matching
    "*.rpm" parses. *)
Lemma rebuild_index_done_iff dir w :
  (rebuild_index dir w).1 = Done tt ↔
  ∃ wr w1,
    createrepo (filepath_Join dir "/repodata") w = (inr wr, w1) ∧
    ∀ name f, rpm_name name → fs_lookup (w_fs w1) (mkPath dir name) = Some f →
      ∃ pk, parses_to w1 (mkPath dir name) pk.
Proof.
  destruct (createrepo (filepath_Join dir "/repodata") w) as [[e|wr] w1] eqn:Hc.
  { split.
    - unfold rebuild_index. run. by rewrite Hc.
    - by intros (? & ? & ? & _). }
  destruct (filepath_Glob_rpm dir w1) as (paths & Hg & _ & Hpaths).
  rewrite (rebuild_index_run dir w wr w1 paths Hc Hg).
  set (w2 := log_append _ w1).
  assert (Hsame : ∀ path, rpm_OpenPackageFile path w2 = rpm_OpenPackageFile path w1).
  { intros path. by apply rpm_OpenPackageFile_fs. }
  unfold defer.
  destruct (parse_all_or_first paths w2)
    as [(added & Hall)|(before & bad & after & added & err & -> & Hall & Hbad)].
  - rewrite (add_packages_all wr paths added w2 Hall). simpl. split; [|done].
    intros _. exists wr, w1. split; [done|]. intros name f Hname Hf.
    assert (Hin : mkPath dir name ∈ paths).
    { apply Hpaths. by exists name, f. }
    apply list_elem_of_lookup in Hin as [i Hi].
    destruct (Forall2_lookup_l _ _ _ _ _ Hall Hi) as (pk & _ & Hpk).
    exists pk. unfold parses_to in *. by rewrite <- Hsame.
  - rewrite (add_packages_first_failure wr before bad after added err w2 Hall Hbad).
    simpl. split; [done|]. intros (wr' & w1' & [= <- <-] & Hparse).
    destruct (proj1 (Hpaths bad)) as (name & f & -> & Hname & Hf);
      [apply elem_of_app; right; left|].
    destruct (Hparse name f Hname Hf) as (pk & Hpk).
    unfold parses_to in Hpk. rewrite <- Hsame in Hpk. congruence.
Qed.


End FailedOutcomes.

(** * The theorems on the small environment *)

(** The listing used below is the one [ioutil.ReadDir] gives. *)
Example demo_files_listing : ioutil_ReadDir "pkgs" demo_world = inr demo_files.
Proof. vm_compute. reflexivity. Qed.

(** The whole run on [demo_world] with the signature check off: the
    valid file is found, the entry whose file is too large is reported
    and scheduled, and the entry whose checksum is no hexadecimal string
    is given up before the download. *)
Example demo_sync_log :
  w_log (Sync (demo_repo false "") "cache" "pkgs" demo_world).2
  = [ LogDebug (MsgCaching "base" "cache");
      LogDebug MsgLoadingMetadata;
      LogDebug (MsgFound 3);
      LogDebug (MsgChecking "pkgs");
      LogError None (MsgTooLarge 5 3 demo_big);
      LogDebug (MsgScheduled 2 10);
      LogError (Some (ErrInvalidByte "x")) (MsgDecodeChecksumError demo_odd);
      LogDebug (MsgInserting 2) ].
Proof. vm_compute. reflexivity. Qed.

(** A file put into the package directory after the downloads, by
    someone else, is in the index. *)
Example demo_out_of_band :
  let c := demo_repo false "" in
  let fetched := (Sync_fetch c "pkgs" None demo_files demo_catalog demo_world).2 in
  let added := set_fs (write_file (mkPath "pkgs" "extra.rpm") (demo_file "extra")
                         (w_fs fetched)) fetched in
  rebuild_index "pkgs" added
  = (Done tt,
     Writer_Close {| w_path := mkPath "pkgs" "repodata" |}
       (index_append
          [ {| pf_meta := "aaaa" |};
            {| pf_meta := "http://mirror/base/Packages/big.rpm" |};
            {| pf_meta := "extra" |} ]
          (log_append [LogDebug (MsgInserting 3)] added))).
Proof. vm_compute. reflexivity. Qed.

(** A claim of the spec that does not hold: the entry whose local file
    is larger than declared is among the missing packages, and a request
    with the path of that file as destination is made for it. *)
Lemma C1_too_large_entry_counterexample :
  {| fi_Name := "big.rpm"; fi_Size := 5 |} ∈ demo_files ∧
  filepath_Base (LocationHref demo_big) = "big.rpm" ∧
  PackageSize demo_big < 5 ∧
  missing_of "pkgs" demo_files demo_catalog demo_world = [demo_big; demo_odd] ∧
  (schedule_jobs (demo_repo false "") "pkgs" 2 0 [demo_big; demo_odd] [] demo_world).1
  = Done [ {| req_URL := "http://mirror/base/Packages/big.rpm";
              req_Label := JobLabel 1 2 demo_big;
              req_Filename := mkPath "pkgs" "big.rpm";
              req_Size := 3;
              req_Checksum := Some ("toy", [187]) |} ].
Proof.
  split; [decided|]. repeat split; vm_compute; reflexivity.
Qed.

Lemma C1_too_large_entry_is_scheduled_witness :
  search_local_files demo_big "big.rpm" (mkPath "pkgs" "big.rpm") demo_files demo_world
  = (Done false, log_append [LogError None (MsgTooLarge 5 3 demo_big)] demo_world) ∧
  ∃ reqs w' req,
    schedule_jobs (demo_repo false "") "pkgs" 2 0 [demo_big; demo_odd] [] demo_world
    = (Done reqs, w') ∧
    req ∈ reqs ∧ req_Filename req = mkPath "pkgs" "big.rpm".
Proof.
  destruct (C1_too_large_entry_is_scheduled (demo_repo false "") "pkgs" demo_files
              demo_big {| fi_Name := "big.rpm"; fi_Size := 5 |} demo_world)
    as (Hsearch & _ & Hjob).
  - decided.
  - decided.
  - reflexivity.
  - simpl. lia.
  - split; [exact Hsearch|].
    destruct (Hjob [demo_big; demo_odd] 0%nat "bb" [187])
      as (reqs & w' & req & Hs & Hin & _ & Hf); [reflexivity..|].
    exists reqs, w', req. split; [exact Hs|]. split; [exact Hin|exact Hf].
Defined.


(** A claim of the spec that does not hold: the one missing package has
    a checksum that is no hexadecimal string, so no request is made and
    the download has no outcome. *)
Lemma C3_outcome_count_counterexample :
  schedule_jobs (demo_repo false "") "pkgs" 1 0 [demo_odd] [] demo_world
  = (Done [],
     log_append [LogError (Some (ErrInvalidByte "x")) (MsgDecodeChecksumError demo_odd)]
       demo_world) ∧
  (download [] DownloadThreads
     (log_append [LogError (Some (ErrInvalidByte "x")) (MsgDecodeChecksumError demo_odd)]
        demo_world)).1
  = Done [] ∧
  length ([] : list Response) ≠ length [demo_odd].
Proof. split; [|split]; [vm_compute; reflexivity..|discriminate]. Qed.

Lemma C4_unverifiable_entry_is_refetched_witness :
  search_local_files demo_other_a "a.rpm" (mkPath "pkgs" "a.rpm") demo_files demo_world
  = (Done false,
     log_append
       [LogError (Some ErrChecksumMismatch) (MsgChecksumValidationFailed demo_other_a)]
       demo_world) ∧
  missing_of "pkgs" demo_files [demo_a; demo_other_a; demo_big] demo_world
  = [demo_other_a; demo_big].
Proof.
  destruct (C4_unverifiable_entry_is_refetched (demo_repo false "") "pkgs" demo_files
              demo_other_a {| fi_Name := "a.rpm"; fi_Size := 4 |} demo_world)
    as (_ & Hmismatch & _ & _).
  - decided.
  - decided.
  - reflexivity.
  - reflexivity.
  - split.
    + apply (Hmismatch "ab" ErrChecksumMismatch); vm_compute; reflexivity.
    + vm_compute. reflexivity.
Defined.


(** A claim of the spec that does not hold: the index writer opens and
    the package directory holds the package "z.rpm", which parses, but
    the file listed before it does not parse, and the index is left
    without a record. *)
Lemma C6_index_counterexample :
  createrepo (filepath_Join "pkgs" "/repodata") demo_world_leftover
  = (inr {| w_path := mkPath "pkgs" "repodata" |}, demo_world_leftover) ∧
  (filepath_Glob (filepath_Join "pkgs" "/*.rpm") demo_world_leftover).1
  = [mkPath "pkgs" "a.rpm"; mkPath "pkgs" "z.rpm"] ∧
  rpm_name "z.rpm" ∧
  fs_lookup (w_fs demo_world_leftover) (mkPath "pkgs" "z.rpm") = Some (demo_file "zzzz") ∧
  parses_to demo_world_leftover (mkPath "pkgs" "z.rpm") {| pf_meta := "zzzz" |} ∧
  (rebuild_index "pkgs" demo_world_leftover).1 = Panic (ErrOther "not an rpm") ∧
  w_index (rebuild_index "pkgs" demo_world_leftover).2 = [].
Proof.
  split; [reflexivity|]. split; [vm_compute; reflexivity|].
  split; [by exists "z"; split; [|decided]|].
  repeat split; vm_compute; reflexivity.
Qed.

Lemma C6_index_is_fresh_listing_witness :
  ∃ added,
    (rebuild_index "pkgs" demo_world).1 = Done tt ∧
    w_index (rebuild_index "pkgs" demo_world).2 = added ∧
    {| pf_meta := "aaaa" |} ∈ added ∧
    {| pf_meta := "bbbbb" |} ∈ added ∧
    length added = 2%nat.
Proof.
  destruct (C6_index_is_fresh_listing (demo_repo false "") "pkgs" None demo_files
              demo_catalog demo_world demo_world
              {| w_path := filepath_Join "pkgs" "/repodata" |} demo_world)
    as (paths & added & Hg & _ & _ & Hr & Hi & _ & Hall & Hin & _).
  - unfold glob_literal. decided.
  - reflexivity.
  - intros name f _ Hf. unfold fs_lookup in Hf. simpl in Hf.
    rewrite lookup_singleton in Hf. simpl in Hf.
    apply lookup_insert_Some in Hf as [[<- <-]|[_ Hf]].
    + by exists {| pf_meta := "aaaa" |}.
    + apply lookup_singleton_Some in Hf as [<- <-].
      by exists {| pf_meta := "bbbbb" |}.
  - exists added. split; [by rewrite Hr|]. split; [exact Hi|]. split; [|split].
    + destruct (Hin "a.rpm" (demo_file "aaaa")) as (pk & Hpk & Hpkin).
      * exists "a". split; [reflexivity|decided].
      * vm_compute. reflexivity.
      * injection Hpk as <-. exact Hpkin.
    + destruct (Hin "big.rpm" (demo_file "bbbbb")) as (pk & Hpk & Hpkin).
      * exists "big". split; [reflexivity|decided].
      * vm_compute. reflexivity.
      * injection Hpk as <-. exact Hpkin.
    + apply Forall2_length in Hall. rewrite <- Hall.
      apply (f_equal (λ r, length r.1)) in Hg. simpl in Hg. rewrite <- Hg.
      vm_compute. reflexivity.
Defined.

Lemma C7_parse_failure_aborts_sync_witness :
  ∃ err, (Sync (demo_repo false "") "cache" "pkgs" demo_world_stray).1 = Panic err.
Proof.
  pose (c := demo_repo false "").
  pose (loaded := Sync_load c "cache" "pkgs" demo_world_stray).
  pose (files := [ {| fi_Name := "a.rpm"; fi_Size := 4 |};
                   {| fi_Name := "stray.rpm"; fi_Size := 0 |} ]).
  pose (fetched := Sync_fetch c "pkgs" None files demo_catalog loaded.2).
  destruct (C7_parse_failure_aborts_sync c "cache" "pkgs" None files demo_catalog
              demo_world_stray loaded.2 [] fetched.2
              {| w_path := filepath_Join "pkgs" "/repodata" |} fetched.2
              (mkPath "pkgs" "stray.rpm") (ErrOther "not an rpm"))
    as (before & bad & after & added & err' & _ & _ & _ & _ & _ & _ & Hsync).
  - vm_compute. reflexivity.
  - vm_compute. reflexivity.
  - reflexivity.
  - decided.
  - vm_compute. reflexivity.
  - exists err'. exact Hsync.
Defined.



Lemma C9_match_by_base_name_witness :
  filepath_Base (LocationHref demo_a) = "a.rpm" ∧
  filepath_Base (LocationHref demo_other_a) = "a.rpm" ∧
  found_in "pkgs" demo_files demo_a demo_world = true ∧
  found_in "pkgs" demo_files demo_other_a demo_world = false ∧
  ∃ reqs w' rp rq,
    schedule_jobs (demo_repo false "") "pkgs" 2 0 [demo_a; demo_other_a] [] demo_world
    = (Done reqs, w') ∧
    rp ∈ reqs ∧ rq ∈ reqs ∧
    req_Label rp = JobLabel 1 2 demo_a ∧
    req_Label rq = JobLabel 2 2 demo_other_a ∧
    req_Filename rp = mkPath "pkgs" "a.rpm" ∧
    req_Filename rq = mkPath "pkgs" "a.rpm".
Proof.
  destruct (C9_match_by_base_name (demo_repo false "") "pkgs" demo_files demo_a demo_other_a
              "a.rpm" demo_world)
    as ((Hp & Hq & _) & _ & Hfile & Hreqs & _).
  - discriminate.
  - decided.
  - right. by exists "Packages".
  - right. by exists "updates".
  - decided.
  - destruct (Hfile {| fi_Name := "a.rpm"; fi_Size := 4 |}) as (_ & _ & Hfp & Hfq & _);
      [decided|reflexivity|].
    split; [exact Hp|]. split; [exact Hq|]. split; [|split].
    + apply Hfp. split; [reflexivity|]. exists "aa". split; vm_compute; reflexivity.
    + apply not_true_is_false. intros Hfound. apply Hfq in Hfound as (_ & sum & Hsum & Hv).
      injection Hsum as <-. vm_compute in Hv. discriminate.
    + destruct (Hreqs [demo_a; demo_other_a] 0%nat 1%nat "aa" [170] "ab" [171])
        as (reqs & w' & rp & rq & Hall); [reflexivity..|].
      exists reqs, w', rp, rq. exact Hall.
Defined.

Lemma C10_keyring_failure_returns_first_witness :
  Sync (demo_repo true "") "cache" "pkgs" demo_world
  = (Fail (ErrOther "no key file"), demo_world).
Proof.
  apply (C10_keyring_failure_returns_first (demo_repo true "") "cache" "pkgs"
           (ErrOther "no key file") demo_world); reflexivity.
Defined.

(** * Further properties of [repo.go] *)

(** X1: [Validate] accepts a repository exactly when it has an ID and a
    mirror list or a base URL; a missing ID is the error reported also
    when both URLs are missing; each error names the Yumfile and the
    line of the repository; and a repository fresh from [NewRepo] is
    not accepted. *)
Theorem Validate_accepts_iff c :
  (Validate c = None ↔ ID c ≠ "" ∧ (MirrorURL c ≠ "" ∨ BaseURL c ≠ "")) ∧
  (ID c = "" → Validate c = Some (ErrNoID (YumfilePath c) (YumfileLineNo c))) ∧
  (ID c ≠ "" → MirrorURL c = "" → BaseURL c = "" →
   Validate c = Some (ErrNoURL (ID c) (YumfilePath c) (YumfileLineNo c))) ∧
  Validate NewRepo = Some (ErrNoID "" 0).
Proof.
  unfold Validate.
  destruct (String.eqb_spec (ID c) "") as [Hid|Hid];
    destruct (String.eqb_spec (MirrorURL c) "") as [Hm|Hm];
    destruct (String.eqb_spec (BaseURL c) "") as [Hb|Hb]; simpl;
    split_and!; try done; try tauto; try (split; [done|tauto]);
    try (split; [tauto|done]).
Qed.

Section Loading.
Context `{env : Env}.

(** X3: [CacheLocal] never panics; it returns a cache exactly when
    [NewCache], [NewRepoCache] and [Update] succeed one after the other,
    and then the cache of [NewRepoCache]; and when it fails, the error
    is the one of the first step that failed and the world is the one
    that step left, the later steps not being run. *)
Theorem CacheLocal_outcome c path w :
  let w0 := log_append [LogDebug (MsgCaching (ID c) path)] w in
  (∀ e, (CacheLocal c path w).1 ≠ Panic e) ∧
  (∀ repocache w',
     CacheLocal c path w = (Done repocache, w') ↔
     ∃ cache w1 w2,
       NewCache path w0 = (inr cache, w1) ∧
       NewRepoCache cache c w1 = (inr repocache, w2) ∧
       Update repocache w2 = (None, w')) ∧
  (∀ e w',
     CacheLocal c path w = (Fail e, w') ↔
     NewCache path w0 = (inl e, w') ∨
     (∃ cache w1, NewCache path w0 = (inr cache, w1) ∧
                  NewRepoCache cache c w1 = (inl e, w')) ∨
     (∃ cache w1 repocache w2,
        NewCache path w0 = (inr cache, w1) ∧
        NewRepoCache cache c w1 = (inr repocache, w2) ∧
        Update repocache w2 = (Some e, w'))).
Proof.
  intros w0. unfold CacheLocal. run. fold w0. unfold Repo_String.
  change (add_log (LogDebug (MsgCaching (ID c) path)) w) with w0.
  destruct (NewCache path w0) as [[e0|cache] w1] eqn:H1; simpl.
  { split; [done|]. split.
    - intros rc w'. split; [done|]. by intros (? & ? & ? & ? & _).
    - intros e w'. split.
      + intros [= -> ->]. by left.
      + intros [[= -> ->]|[(? & ? & ? & _)|(? & ? & ? & ? & ? & _)]]; done. }
  destruct (NewRepoCache cache c w1) as [[e1|rc] w2] eqn:H2; simpl.
  { split; [done|]. split.
    - intros rc w'. split; [done|]. intros (? & ? & ? & [= <- <-] & ? & _). congruence.
    - intros e w'. split.
      + intros [= -> ->]. right; left. by exists cache, w1.
      + intros [?|[(? & ? & [= <- <-] & ?)|(? & ? & ? & ? & [= <- <-] & ? & _)]];
          [done|congruence..]. }
  destruct (Update rc w2) as [[e2|] w3] eqn:H3; simpl.
  - split; [done|]. split.
    + intros rc' w'. split; [done|].
      intros (? & ? & ? & [= <- <-] & Hrc & Hu). rewrite H2 in Hrc.
      injection Hrc as <- <-. congruence.
    + intros e w'. split.
      * intros [= -> ->]. right; right. by exists cache, w1, rc, w2.
      * intros [?|[(? & ? & [= <- <-] & ?)|(? & ? & ? & ? & [= <- <-] & Hrc & Hu)]];
          [done|congruence|].
        rewrite H2 in Hrc. injection Hrc as <- <-. congruence.
  - split; [done|]. split.
    + intros rc' w'. split.
      * intros [= <- <-]. by exists cache, w1, w2.
      * intros (? & ? & ? & [= <- <-] & Hrc & Hu). rewrite H2 in Hrc.
        injection Hrc as <- <-. congruence.
    + intros e w'. split; [done|].
      intros [?|[(? & ? & [= <- <-] & ?)|(? & ? & ? & ? & [= <- <-] & Hrc & Hu)]];
        [done|congruence|].
      rewrite H2 in Hrc. injection Hrc as <- <-. congruence.
Qed.

End Loading.

Section LoadingErrors.
Context `{env : Env}.

Lemma os_MkdirAll_cases path w :
  (path = "" ∧ os_MkdirAll path w = (Some ErrNotExist, w)) ∨
  (path ≠ "" ∧ ∃ w', os_MkdirAll path w = (None, w') ∧ is_Some (w_fs w' !! path) ∧
                     w_log w' = w_log w).
Proof.
  unfold os_MkdirAll. destruct path as [|a path]; [by left|]. right. split; [done|].
  destruct (w_fs w !! String a path) as [entries|] eqn:Hd.
  - exists w. by rewrite Hd.
  - eexists. split; [done|]. simpl. by rewrite lookup_insert_eq.
Qed.

(** What [Sync_load] returns when it does not fail. *)
Lemma Sync_load_inv c cachedir packagedir w keyring files packages w' :
  Sync_load c cachedir packagedir w = (Done (keyring, files, packages), w') →
  ∃ repocache w1 primarydb w2 w3 catalog w4,
    keyring = (if GPGCheck c
               then match OpenKeyRing (GPGKey c) (w_fs w) with
                    | inr kr => Some kr
                    | inl _ => None
                    end
               else None) ∧
    (GPGCheck c = true → is_Some keyring) ∧
    CacheLocal c cachedir w = (Done repocache, w1) ∧
    PrimaryDB repocache w1 = (inr primarydb, w2) ∧
    os_MkdirAll packagedir w2 = (None, w3) ∧
    ioutil_ReadDir packagedir w3 = inr files ∧
    Packages primarydb (log_append [LogDebug MsgLoadingMetadata] w3) = (inr catalog, w4) ∧
    packages = FilterPackages c catalog ∧
    w' = log_append [LogDebug (MsgFound (length packages))] w4.
Proof.
  unfold Sync_load.
  assert (Hrest : ∀ keyring0,
    (let! r := try (CacheLocal c cachedir) in
     match r with
     | inl err => fail (ErrCacheMetadata (Repo_String c) err)
     | inr repocache =>
       let! r := call (PrimaryDB repocache) in
       match r with
       | inl err => fail err
       | inr primarydb =>
         let! err := call (os_MkdirAll packagedir) in
         do! (match err with
              | Some err =>
                if negb (os_IsExist err) then fail (ErrCreatePath packagedir err) else ret tt
              | None => ret tt
              end) in
         let! r := read (ioutil_ReadDir packagedir) in
         match r with
         | inl _ => fail ErrReadingPackages
         | inr files =>
           do! Dprintf MsgLoadingMetadata in
           let! r := call (Packages primarydb) in
           match r with
           | inl err => fail (ErrPrimaryDb err)
           | inr packages =>
             let packages := FilterPackages c packages in
             do! Dprintf (MsgFound (length packages)) in
             ret (keyring0, files, packages)
           end
         end
       end
     end) w = (Done (keyring, files, packages), w') →
    keyring0 = keyring ∧
    ∃ repocache w1 primarydb w2 w3 catalog w4,
      CacheLocal c cachedir w = (Done repocache, w1) ∧
      PrimaryDB repocache w1 = (inr primarydb, w2) ∧
      os_MkdirAll packagedir w2 = (None, w3) ∧
      ioutil_ReadDir packagedir w3 = inr files ∧
      Packages primarydb (log_append [LogDebug MsgLoadingMetadata] w3) = (inr catalog, w4) ∧
      packages = FilterPackages c catalog ∧
      w' = log_append [LogDebug (MsgFound (length packages))] w4).
  { intros keyring0. run.
    destruct (CacheLocal c cachedir w) as [[rc|e|e] w1] eqn:Hc; simpl; [|done..].
    destruct (PrimaryDB rc w1) as [[e|db] w2] eqn:Hdb; simpl; [done|].
    destruct (os_MkdirAll_cases packagedir w2) as [[-> Hm]|[Hne (w3 & Hm & Hdir & _)]];
      rewrite Hm; simpl; [done|].
    destruct (ioutil_ReadDir packagedir w3) as [e|fs] eqn:Hr; simpl; [done|].
    destruct (Packages db _) as [[e|catalog] w4] eqn:Hp; simpl; [done|].
    intros [= <- <- <- <-]. split; [done|].
    by exists rc, w1, db, w2, w3, catalog, w4. }
  destruct (GPGCheck c) eqn:Hgpg.
  - unfold bind at 1. unfold bind at 1. unfold read at 1.
    destruct (OpenKeyRing (GPGKey c) (w_fs w)) as [e|kr] eqn:Hk.
    { unfold fail at 1. done. }
    unfold ret at 1. cbv beta iota.
    intros Hrun. apply Hrest in Hrun as (<- & rc & w1 & db & w2 & w3 & cat & w4 & Hall).
    exists rc, w1, db, w2, w3, cat, w4. split; [done|]. split; [by eauto|done].
  - unfold bind at 1. unfold ret at 1. cbv beta iota.
    intros Hrun. apply Hrest in Hrun as (<- & rc & w1 & db & w2 & w3 & cat & w4 & Hall).
    exists rc, w1, db, w2, w3, cat, w4. split; [done|]. split; [done|done].
Qed.

(** X4: when the loading part of [Sync] succeeds, the package directory
    is not the empty path; the key ring is nil with the signature check
    off and the one [OpenKeyRing] gave with it on; and the run was this
    one: [CacheLocal] gave the cache of the repository, [PrimaryDB] of
    that cache gave the primary db, [os.MkdirAll] made the package
    directory, the listing is what [ioutil.ReadDir] then gave for it and
    has no name twice, [Packages] of that primary db gave the catalog
    after the line on the loading was logged, the packages are that
    catalog after [FilterPackages], and their number is logged last. *)
Theorem Sync_load_success c cachedir packagedir w keyring files packages w' :
  Sync_load c cachedir packagedir w = (Done (keyring, files, packages), w') →
  packagedir ≠ "" ∧
  (GPGCheck c = false → keyring = None) ∧
  (GPGCheck c = true →
   ∃ kr, keyring = Some kr ∧ OpenKeyRing (GPGKey c) (w_fs w) = inr kr) ∧
  NoDup (fi_Name <$> files) ∧
  ∃ repocache w1 primarydb w2 w3 catalog w4,
    CacheLocal c cachedir w = (Done repocache, w1) ∧
    PrimaryDB repocache w1 = (inr primarydb, w2) ∧
    os_MkdirAll packagedir w2 = (None, w3) ∧
    ioutil_ReadDir packagedir w3 = inr files ∧
    Packages primarydb (log_append [LogDebug MsgLoadingMetadata] w3) = (inr catalog, w4) ∧
    packages = FilterPackages c catalog ∧
    w' = log_append [LogDebug (MsgFound (length packages))] w4.
Proof.
  intros Hrun.
  apply Sync_load_inv in Hrun
    as (rc & w1 & db & w2 & w3 & cat & w4 & Hk & Hsome & Hc & Hdb & Hm & Hr & Hp & Hps & Hw).
  split.
  { intros ->. by destruct (os_MkdirAll_cases "" w2) as [[_ Hm']|[? _]]; [congruence|]. }
  split; [by intros Hg; rewrite Hg in Hk|]. split.
  { intros Hg. rewrite Hg in Hk.
    destruct (OpenKeyRing (GPGKey c) (w_fs w)) as [e|kr].
    - destruct (Hsome Hg) as [? Hs]. congruence.
    - by exists kr. }
  split; [by eapply ioutil_ReadDir_NoDup|].
  by exists rc, w1, db, w2, w3, cat, w4.
Qed.

(** X2: every error [Sync] returns is one of six: the error of
    [OpenKeyRing], with the signature check on; the error of
    [CacheLocal] wrapped with the ID of the repository; the error of
    [PrimaryDB] as it is; the error of [os.MkdirAll] wrapped with the
    package directory, unless it says that the directory exists; the
    fixed error for a listing that failed; or the error of [Packages],
    wrapped. *)
Theorem Sync_error_forms c cachedir packagedir w e :
  (Sync c cachedir packagedir w).1 = Fail e →
  (GPGCheck c = true ∧ OpenKeyRing (GPGKey c) (w_fs w) = inl e) ∨
  (∃ err, e = ErrCacheMetadata (ID c) err ∧ (CacheLocal c cachedir w).1 = Fail err) ∨
  (∃ repocache w1 w2, PrimaryDB repocache w1 = (inl e, w2)) ∨
  (∃ err w2 w3, e = ErrCreatePath packagedir err ∧ os_IsExist err = false ∧
                os_MkdirAll packagedir w2 = (Some err, w3)) ∨
  e = ErrReadingPackages ∨
  (∃ err primarydb w3 w4, e = ErrPrimaryDb err ∧ Packages primarydb w3 = (inl err, w4)).
Proof.
  unfold Sync. unfold bind at 1.
  destruct (Sync_load c cachedir packagedir w) as [[[[k fs] ps]|e'|e'] w'] eqn:Hload; simpl.
  { intros Hfail. by apply Sync_mirror_no_Fail in Hfail. }
  2: done.
  intros [= ->]. revert Hload. unfold Sync_load.
  assert (Hrest : ∀ keyring0 : option KeyRing,
    (let! r := try (CacheLocal c cachedir) in
     match r with
     | inl err => fail (ErrCacheMetadata (Repo_String c) err)
     | inr repocache =>
       let! r := call (PrimaryDB repocache) in
       match r with
       | inl err => fail err
       | inr primarydb =>
         let! err := call (os_MkdirAll packagedir) in
         do! (match err with
              | Some err =>
                if negb (os_IsExist err) then fail (ErrCreatePath packagedir err) else ret tt
              | None => ret tt
              end) in
         let! r := read (ioutil_ReadDir packagedir) in
         match r with
         | inl _ => fail ErrReadingPackages
         | inr files =>
           do! Dprintf MsgLoadingMetadata in
           let! r := call (Packages primarydb) in
           match r with
           | inl err => fail (ErrPrimaryDb err)
           | inr packages =>
             let packages := FilterPackages c packages in
             do! Dprintf (MsgFound (length packages)) in
             ret (keyring0, files, packages)
           end
         end
       end
     end) w = (Fail e, w') →
    (∃ err, e = ErrCacheMetadata (ID c) err ∧ (CacheLocal c cachedir w).1 = Fail err) ∨
    (∃ repocache w1 w2, PrimaryDB repocache w1 = (inl e, w2)) ∨
    (∃ err w2 w3, e = ErrCreatePath packagedir err ∧ os_IsExist err = false ∧
                  os_MkdirAll packagedir w2 = (Some err, w3)) ∨
    e = ErrReadingPackages ∨
    (∃ err primarydb w3 w4, e = ErrPrimaryDb err ∧ Packages primarydb w3 = (inl err, w4))).
  { intros keyring0. run.
    destruct (CacheLocal c cachedir w) as [[rc|e0|e0] w1] eqn:Hc; simpl; [| |done].
    2: { intros [= <- <-]. left. by exists e0. }
    destruct (PrimaryDB rc w1) as [[e0|db] w2] eqn:Hdb; simpl.
    { intros [= <- <-]. right; left. by exists rc, w1, w2. }
    destruct (os_MkdirAll packagedir w2) as [[e0|] w3] eqn:Hm; simpl.
    - destruct (os_IsExist e0) eqn:Hex; simpl.
      + destruct (ioutil_ReadDir packagedir w3) as [e1|fs] eqn:Hr; simpl.
        { intros [= <- <-]. by right; right; right; left. }
        destruct (Packages db _) as [[e1|catalog] w4] eqn:Hp; simpl; [|done].
        intros [= <- <-]. right; right; right; right. by eexists e1, db, _, w4.
      + intros [= <- <-]. right; right; left. by exists e0, w2, w3.
    - destruct (ioutil_ReadDir packagedir w3) as [e1|fs] eqn:Hr; simpl.
      { intros [= <- <-]. by right; right; right; left. }
      destruct (Packages db _) as [[e1|catalog] w4] eqn:Hp; simpl; [|done].
      intros [= <- <-]. right; right; right; right. by eexists e1, db, _, w4. }
  destruct (GPGCheck c) eqn:Hgpg.
  - unfold bind at 1. unfold bind at 1. unfold read at 1.
    destruct (OpenKeyRing (GPGKey c) (w_fs w)) as [e0|kr] eqn:Hk.
    + unfold fail at 1. intros [= <- <-]. by left.
    + unfold ret at 1. cbv beta iota. intros Hrun. right. by apply (Hrest (Some kr)).
  - unfold bind at 1. unfold ret at 1. cbv beta iota.
    intros Hrun. right. by apply (Hrest None).
Qed.

End LoadingErrors.

(** *** More on the list of missing packages *)

Lemma uint64_range z : 0 ≤ uint64 z < 2 ^ 64.
Proof. unfold uint64. apply Z.mod_pos_bound. lia. Qed.

Lemma foldl_sizes_sum (missing : list PackageEntry) total :
  0 ≤ total < 2 ^ 64 →
  foldl (λ t p, uint64 (t + uint64 (PackageSize p))) total missing
  = uint64 (total + sizes_sum missing).
Proof.
  revert total. induction missing as [|p missing IH]; intros total Hrange; simpl.
  - unfold uint64. rewrite Z.add_0_r. symmetry. by apply Z.mod_small.
  - rewrite IH by apply uint64_range. unfold uint64.
    rewrite Zplus_mod_idemp_l. f_equal. lia.
Qed.

Lemma sizes_sum_exact (missing : list PackageEntry) :
  (∀ p, p ∈ missing → 0 ≤ PackageSize p) →
  foldr (λ p acc, PackageSize p + acc) 0 missing < 2 ^ 64 →
  sizes_sum missing = foldr (λ p acc, PackageSize p + acc) 0 missing ∧
  0 ≤ sizes_sum missing.
Proof.
  induction missing as [|p missing IH]; intros Hpos Hsum; simpl in *; [done|].
  assert (Hp : 0 ≤ PackageSize p) by (apply Hpos; left).
  assert (Hrest : ∀ q, q ∈ missing → 0 ≤ PackageSize q) by (intros q Hq; apply Hpos; by right).
  assert (Hnonneg : 0 ≤ foldr (λ p acc, PackageSize p + acc) 0 missing).
  { clear -Hrest. induction missing as [|q missing IH]; simpl; [done|].
    assert (0 ≤ PackageSize q) by (apply Hrest; left).
    assert (0 ≤ foldr (λ p acc, PackageSize p + acc) 0 missing)
      by (apply IH; intros; apply Hrest; by right).
    lia. }
  destruct IH as [IH1 IH2]; [done|lia|].
  assert (Hu : uint64 (PackageSize p) = PackageSize p).
  { unfold uint64. apply Z.mod_small. lia. }
  rewrite Hu. lia.
Qed.

Section MissingPackages.
Context `{env : Env}.

(** Two worlds with the same files give the same search, line by line. *)
Lemma search_local_files_twice p fn path files w1 w2 :
  w_fs w1 = w_fs w2 →
  ∃ found lines,
    search_local_files p fn path files w1 = (Done found, log_append lines w1) ∧
    search_local_files p fn path files w2 = (Done found, log_append lines w2).
Proof.
  revert w1 w2. induction files as [|fi files IH]; intros w1 w2 Hfs; simpl.
  - exists false, []. by rewrite !log_append_nil.
  - repeat case_decide; run.
    + destruct (pkg_Checksum p) as [err|sum]; run.
      * by exists false, [LogError (Some err) (MsgComputeChecksumFailed p)].
      * rewrite Hfs. destruct (ValidateFileChecksum _ _ _ _) as [err|] eqn:Hv; run.
        -- case_decide; run; eexists false, [_]; by rewrite <- !add_log_append.
        -- exists true, []. by rewrite !log_append_nil.
    + eexists false, [_]. by rewrite <- !add_log_append.
    + destruct (IH (add_log (LogDebug (MsgIncomplete p)) w1)
                  (add_log (LogDebug (MsgIncomplete p)) w2)) as (b & ls & -> & ->); [done|].
      exists b, (LogDebug (MsgIncomplete p) :: ls).
      by rewrite !add_log_append, !log_append_app.
    + by apply IH.
Qed.

(** The outer loop with its running total, in two worlds with the same
    files. *)
Lemma build_missing_twice dir files packages missing total w1 w2 :
  w_fs w1 = w_fs w2 →
  ∃ lines,
    let new := filter (λ p, found_in dir files p w1 = false) packages in
    let total' := foldl (λ t p, uint64 (t + uint64 (PackageSize p))) total new in
    build_missing dir files packages missing total w1
    = (Done (missing ++ new, total'), log_append lines w1) ∧
    build_missing dir files packages missing total w2
    = (Done (missing ++ new, total'), log_append lines w2).
Proof.
  revert missing total w1 w2.
  induction packages as [|p packages IH]; intros missing total w1 w2 Hfs; simpl.
  - exists []. by rewrite app_nil_r, !log_append_nil.
  - destruct (search_local_files_twice p (filepath_Base (LocationHref p))
                (filepath_Join dir (filepath_Base (LocationHref p))) files w1 w2 Hfs)
      as (found & ls & Hrun1 & Hrun2).
    pose proof (found_in_run _ _ _ _ _ _ Hrun1) as Hfound.
    unfold bind. rewrite Hrun1, Hrun2.
    assert (Hext : filter (λ q, found_in dir files q (log_append ls w1) = false) packages
                   = filter (λ q, found_in dir files q w1 = false) packages).
    { apply list_filter_iff. intros q. by rewrite (found_in_fs _ _ _ (log_append ls w1) w1). }
    rewrite filter_cons. destruct found; simpl.
    + destruct (IH missing total (log_append ls w1) (log_append ls w2)) as (ls' & H1 & H2);
        [done|].
      exists (ls ++ ls'). rewrite H1, H2, Hext, !log_append_app.
      by rewrite decide_False by congruence.
    + destruct (IH (missing ++ [p]) (uint64 (total + uint64 (PackageSize p)))
                  (log_append ls w1) (log_append ls w2)) as (ls' & H1 & H2); [done|].
      exists (ls ++ ls'). rewrite H1, H2, Hext, !log_append_app, <- !app_assoc.
      by rewrite decide_True by done.
Qed.

(** X5: the missing packages are packages of the filtered catalog, in
    the order of the catalog, and every request is labelled with one of
    them: nothing the filter dropped is scheduled. *)
Theorem missing_within_catalog c dir files packages w :
  ∃ missing total w1 reqs w2,
    build_missing dir files packages [] 0 w = (Done (missing, total), w1) ∧
    schedule_jobs c dir (length missing) 0 missing [] w1 = (Done reqs, w2) ∧
    missing `sublist_of` packages ∧
    ∀ req, req ∈ reqs →
      ∃ i p, req_Label req = JobLabel i (length missing) p ∧ p ∈ missing ∧ p ∈ packages.
Proof.
  destruct (missing_of_run dir files packages w) as (t & w1 & Hb & _).
  exists (missing_of dir files packages w), t, w1. eexists _, _.
  split; [exact Hb|]. split; [apply schedule_jobs_spec|].
  assert (Hsub : missing_of dir files packages w `sublist_of` packages).
  { rewrite missing_of_filter. apply sublist_filter. }
  split; [exact Hsub|]. simpl. intros req Hreq.
  apply rights_jobs_of_elem in Hreq as (k & p & Hk & Hjob).
  apply job_of_request in Hjob as (Hl & _).
  exists (0 + k + 1)%nat, p. split; [done|].
  assert (Hin : p ∈ missing_of dir files packages w) by (by apply list_elem_of_lookup_2 with k).
  split; [done|]. by eapply sublist_subseteq.
Qed.

(** X6: the total logged with the missing packages is the sum of their
    sizes, each taken as an unsigned 64-bit integer, modulo 2^64; it
    is the plain sum when no size is negative and the sum is below
    2^64. *)
Theorem totalsize_is_wrapped_sum dir files packages w :
  ∃ total w',
    build_missing dir files packages [] 0 w
    = (Done (missing_of dir files packages w, total), w') ∧
    total = uint64 (sizes_sum (missing_of dir files packages w)) ∧
    0 ≤ total < 2 ^ 64 ∧
    ((∀ p, p ∈ missing_of dir files packages w → 0 ≤ PackageSize p) →
     foldr (λ p acc, PackageSize p + acc) 0 (missing_of dir files packages w) < 2 ^ 64 →
     total = foldr (λ p acc, PackageSize p + acc) 0 (missing_of dir files packages w)).
Proof.
  destruct (build_missing_twice dir files packages [] 0 w w eq_refl) as (ls & Hrun & _).
  simpl in Hrun. rewrite <- missing_of_filter in Hrun.
  rewrite foldl_sizes_sum in Hrun by lia. rewrite Z.add_0_l in Hrun.
  eexists _, _. split; [exact Hrun|]. split; [done|]. split; [apply uint64_range|].
  intros Hpos Hsum. destruct (sizes_sum_exact _ Hpos Hsum) as [-> Hnonneg].
  unfold uint64. apply Z.mod_small. lia.
Qed.

(** X7: the search for missing packages reads the file system and
    writes the log only, and what it finds does not depend on the log:
    run again in the world it left, it gives the same list and the same
    total and logs the same lines once more. *)
Theorem reconciliation_idempotent dir files packages w :
  ∃ missing total lines,
    build_missing dir files packages [] 0 w
    = (Done (missing, total), log_append lines w) ∧
    build_missing dir files packages [] 0 (log_append lines w)
    = (Done (missing, total), log_append (lines ++ lines) w).
Proof.
  destruct (build_missing_twice dir files packages [] 0 w w eq_refl) as (ls & Hrun & _).
  destruct (build_missing_twice dir files packages [] 0 w (log_append ls w) eq_refl)
    as (ls' & Hrun1 & Hrun2).
  simpl in *. rewrite Hrun in Hrun1. injection Hrun1 as Hlog.
  assert (ls' = ls) as ->.
  { by apply app_inv_head in Hlog. }
  eexists _, _, ls. split; [exact Hrun|]. by rewrite Hrun2, log_append_app.
Qed.

(** X8: a local file with the name of the entry and fewer bytes than
    declared is noted with a debug line only; the entry is not found
    and is appended to the missing packages. *)
Theorem incomplete_file_is_scheduled dir files p fi w :
  NoDup (fi_Name <$> files) →
  fi ∈ files →
  fi_Name fi = filepath_Base (LocationHref p) →
  fi_Size fi < PackageSize p →
  search_local_files p (filepath_Base (LocationHref p))
    (filepath_Join dir (filepath_Base (LocationHref p))) files w
  = (Done false, log_append [LogDebug (MsgIncomplete p)] w) ∧
  ∀ before after,
    missing_of dir files (before ++ p :: after) w
    = missing_of dir files before w ++ p :: missing_of dir files after w.
Proof.
  intros Hnd Hin Hfn Hsz.
  assert (Hrun : search_local_files p (filepath_Base (LocationHref p))
            (filepath_Join dir (filepath_Base (LocationHref p))) files w
          = (Done false, log_append [LogDebug (MsgIncomplete p)] w)).
  { rewrite (search_local_files_unique _ _ _ files fi w Hnd Hin Hfn). simpl.
    rewrite decide_True by done. rewrite !decide_False by lia. done. }
  split; [exact Hrun|]. intros before after.
  apply missing_of_app. by apply found_in_run in Hrun.
Qed.

(** X9: when no listed file has the base name of any package, as in an
    empty package directory, every package is missing, in the order of
    the catalog, and the search logs nothing and changes nothing. *)
Theorem unmatched_catalog_is_all_missing dir files packages w :
  (∀ p fi, p ∈ packages → fi ∈ files → fi_Name fi ≠ filepath_Base (LocationHref p)) →
  build_missing dir files packages [] 0 w
  = (Done (packages, uint64 (sizes_sum packages)), w).
Proof.
  intros Hno.
  assert (Hgen : ∀ missing total,
    build_missing dir files packages missing total w
    = (Done (missing ++ packages,
             foldl (λ t p, uint64 (t + uint64 (PackageSize p))) total packages), w)).
  { induction packages as [|p packages IH]; intros missing total; simpl.
    - by rewrite app_nil_r.
    - unfold bind. rewrite search_local_files_no_match.
      + simpl. rewrite IH.
        * by rewrite <- app_assoc.
        * intros q fi Hq. apply Hno. by right.
      + intros fi Hfi. apply Hno; [left|done]. }
  rewrite Hgen, foldl_sizes_sum by lia. by rewrite Z.add_0_l.
Qed.

(** A valid local file is found without a line in the log. *)
Lemma search_local_files_valid dir files p w :
  NoDup (fi_Name <$> files) →
  spec_Valid dir files (w_fs w) p →
  search_local_files p (filepath_Base (LocationHref p))
    (filepath_Join dir (filepath_Base (LocationHref p))) files w = (Done true, w).
Proof.
  intros Hnd (fi & sum & Hin & Hfn & Hsz & Hsum & Hv).
  rewrite (search_local_files_unique _ _ _ files fi w Hnd Hin Hfn). simpl.
  rewrite !decide_True by done. rewrite Hsum. run. by rewrite Hv.
Qed.

(** X10: when every package of the catalog has a valid local file,
    nothing is missing: no request is made, the download client gets no
    job, no file is opened, and all that happens before the index is
    two debug lines. *)
Theorem valid_mirror_fetches_nothing c dir keyring files packages w :
  NoDup (fi_Name <$> files) →
  (∀ p, p ∈ packages → spec_Valid dir files (w_fs w) p) →
  Sync_fetch c dir keyring files packages w
  = (Done [], log_append [LogDebug (MsgChecking dir); LogDebug (MsgScheduled 0 0)] w).
Proof.
  intros Hnd Hvalid. unfold Sync_fetch.
  assert (Hgen : ∀ missing total w0, w_fs w0 = w_fs w →
    build_missing dir files packages missing total w0 = (Done (missing, total), w0)).
  { clear c keyring.
    induction packages as [|p packages IH]; intros missing total w0 Hfs; simpl; [done|].
    unfold bind. rewrite (search_local_files_valid dir files p w0 Hnd).
    - simpl. apply IH; [|done]. intros q Hq. apply Hvalid. by right.
    - rewrite Hfs. apply Hvalid. left. }
  unfold bind at 1. unfold Dprintf at 1. unfold bind at 1.
  rewrite Hgen by done. simpl. unfold bind, Dprintf, ret, download. simpl.
  by rewrite !add_log_append, log_append_app.
Qed.

End MissingPackages.

(** *** More on the requests *)

Lemma string_length_list s : String.length s = length (list_ascii_of_string s).
Proof. induction s as [|a s IH]; simpl; [done|]. by rewrite IH. Qed.

Lemma fromHexChar_range c a : fromHexChar c = Some a → 0 ≤ a < 16.
Proof.
  unfold fromHexChar.
  repeat (match goal with |- context [if ?b then _ else _] => destruct b eqn:? end);
    intros [= <-]; lia.
Qed.

Lemma hex_byte_range a b : 0 ≤ a < 16 → 0 ≤ b < 16 → 0 ≤ Z.lor (Z.shiftl a 4) b < 256.
Proof.
  intros Ha Hb.
  assert (Hcases : ∀ x, 0 ≤ x < 16 →
            x = 0 ∨ x = 1 ∨ x = 2 ∨ x = 3 ∨ x = 4 ∨ x = 5 ∨ x = 6 ∨ x = 7 ∨ x = 8 ∨ x = 9 ∨ x = 10 ∨ x = 11 ∨ x = 12 ∨ x = 13 ∨ x = 14 ∨ x = 15) by (intros; lia).
  destruct (Hcases a Ha) as [ -> | [ -> | [ -> | [ -> | [ -> | [ -> | [ -> | [ -> | [ -> | [ -> | [ -> | [ -> | [ -> | [ -> | [ -> | ->]]]]]]]]]]]]]]];
    destruct (Hcases b Hb) as [ -> | [ -> | [ -> | [ -> | [ -> | [ -> | [ -> | [ -> | [ -> | [ -> | [ -> | [ -> | [ -> | [ -> | [ -> | ->]]]]]]]]]]]]]]];
    vm_compute; split; congruence.
Qed.

Lemma list_pair_ind {A} (P : list A → Prop) :
  P [] → (∀ a, P [a]) → (∀ a b l, P l → P (a :: b :: l)) → ∀ l, P l.
Proof.
  intros Hnil Hone Hstep l.
  enough (P l ∧ ∀ a, P (a :: l)) by tauto.
  induction l as [|b l [IH1 IH2]]; [by split|].
  split; [apply IH2|]. intros a. by apply Hstep.
Qed.

(** [hex_Decode] succeeds exactly on an even number of hexadecimal
    digits, and then gives one byte for every two of them. *)
Lemma hex_Decode_spec l :
  match hex_Decode l with
  | inr bs =>
    length l = (2 * length bs)%nat ∧ Forall is_hex l ∧ Forall (λ b, 0 ≤ b < 256) bs
  | inl _ => ¬ (Nat.Even (length l) ∧ Forall is_hex l)
  end.
Proof.
  induction l as [|a|a b l IH] using list_pair_ind.
  - simpl. by repeat split.
  - simpl. destruct (fromHexChar a); intros [[k Hk] _]; simpl in Hk; lia.
  - simpl. destruct (fromHexChar a) as [x|] eqn:Ha.
    2: { intros [_ Hall]. apply Forall_cons in Hall as [[? Hx] _]. unfold is_hex in *.
         congruence. }
    destruct (fromHexChar b) as [y|] eqn:Hb.
    2: { intros [_ Hall]. apply Forall_cons in Hall as [_ Hall].
         apply Forall_cons in Hall as [[? Hy] _]. congruence. }
    destruct (hex_Decode l) as [err|bs].
    + intros [[k Hk] Hall]. apply IH. split.
      * exists (k - 1)%nat. simpl in Hk. lia.
      * apply Forall_cons in Hall as [_ Hall]. by apply Forall_cons in Hall as [_ Hall].
    + destruct IH as (Hlen & Hhex & Hbytes). split; [simpl; lia|]. split.
      * constructor; [by exists x|]. constructor; [by exists y|done].
      * constructor; [|done].
        apply hex_byte_range; by eapply fromHexChar_range.
Qed.

Section Requests.
Context `{env : Env}.

Lemma job_of_request_full c dir total i p req :
  job_of c dir total i p = inr req →
  ∃ sum b,
    url_Parse (urljoin (BaseURL c) (LocationHref p)) = None ∧
    pkg_Checksum p = inr sum ∧
    hex_DecodeString sum = inr b ∧
    req = {| req_URL := urljoin (BaseURL c) (LocationHref p);
             req_Label := JobLabel (i + 1) total p;
             req_Filename := filepath_Join dir (filepath_Base (LocationHref p));
             req_Size := uint64 (PackageSize p);
             req_Checksum := Some (ChecksumType p, b) |}.
Proof.
  unfold job_of, grab_NewRequest.
  destruct (url_Parse _) as [|] eqn:Hurl; [done|].
  destruct (pkg_Checksum p) as [|sum]; [done|].
  destruct (hex_DecodeString sum) as [|b] eqn:Hb; [done|].
  intros [= <-]. by exists sum, b.
Qed.

(** X11: every request of the scheduling loop belongs to one missing
    package: its URL is the base URL of the repository joined with the
    location of the package, its destination the base name of the
    location in the package directory, its size the declared size as an
    unsigned 64-bit integer, its checksum the decoded checksum of the
    catalog with the declared algorithm, and its label the place of the
    package among the missing ones, counted from 1, and their number. *)
Theorem requests_carry_catalog_data c dir missing w :
  ∃ reqs lines,
    schedule_jobs c dir (length missing) 0 missing [] w = (Done reqs, log_append lines w) ∧
    ∀ req, req ∈ reqs →
      ∃ k p sum b,
        missing !! k = Some p ∧
        pkg_Checksum p = inr sum ∧
        hex_DecodeString sum = inr b ∧
        req = {| req_URL := urljoin (BaseURL c) (LocationHref p);
                 req_Label := JobLabel (k + 1) (length missing) p;
                 req_Filename := filepath_Join dir (filepath_Base (LocationHref p));
                 req_Size := uint64 (PackageSize p);
                 req_Checksum := Some (ChecksumType p, b) |}.
Proof.
  eexists _, _. split; [apply schedule_jobs_spec|]. simpl. intros req Hreq.
  apply rights_jobs_of_elem in Hreq as (k & p & Hk & Hjob).
  apply job_of_request_full in Hjob as (sum & b & _ & Hsum & Hb & ->).
  by exists k, p, sum, b.
Qed.

Lemma jobs_of_labels_sorted c dir total i missing :
  StronglySorted lt ((λ r, label_index (req_Label r)) <$> rights (jobs_of c dir total i missing)) ∧
  Forall (λ n, i < n ≤ i + length missing)%nat
    ((λ r, label_index (req_Label r)) <$> rights (jobs_of c dir total i missing)).
Proof.
  revert i. induction missing as [|p missing IH]; intros i; unfold rights; simpl.
  - split; constructor.
  - destruct (IH (S i)) as [Hsorted Hrange].
    assert (Hrange' : Forall (λ n, i < n ≤ i + S (length missing))%nat
              ((λ r, label_index (req_Label r)) <$> rights (jobs_of c dir total (S i) missing))).
    { eapply Forall_impl; [exact Hrange|]. simpl. intros; lia. }
    destruct (job_of c dir total i p) as [line|req] eqn:Hjob; simpl.
    + by split.
    + apply job_of_request in Hjob as (Hl & _). rewrite Hl. simpl. split.
      * constructor; [exact Hsorted|]. eapply Forall_impl; [exact Hrange|]. simpl. intros; lia.
      * constructor; [lia|exact Hrange'].
Qed.

(** X12: the requests keep the order of the missing packages: the
    numbers of their labels grow strictly along the list and lie
    between 1 and the number of missing packages, so that a package
    stopped before dispatch leaves a gap in the numbering. *)
Theorem request_labels_increase c dir missing w :
  ∃ reqs lines,
    schedule_jobs c dir (length missing) 0 missing [] w = (Done reqs, log_append lines w) ∧
    StronglySorted lt ((λ r, label_index (req_Label r)) <$> reqs) ∧
    Forall (λ n, 1 ≤ n ≤ length missing)%nat ((λ r, label_index (req_Label r)) <$> reqs).
Proof.
  eexists _, _. split; [apply schedule_jobs_spec|]. simpl.
  destruct (jobs_of_labels_sorted c dir (length missing) 0 missing) as [Hs Hr].
  split; [done|]. eapply Forall_impl; [exact Hr|]. simpl. intros; lia.
Qed.

(** X13: the scheduling loop reads nothing of the repository but its
    base URL: two repositories with the same base URL, whatever their
    mirror lists and other fields, get the same requests and the same
    log lines. *)
Theorem requests_depend_on_BaseURL_only c c' dir total i missing reqs w :
  BaseURL c = BaseURL c' →
  schedule_jobs c dir total i missing reqs w = schedule_jobs c' dir total i missing reqs w.
Proof.
  intros Hbase. revert i reqs w.
  induction missing as [|p missing IH]; intros i reqs w; simpl; [done|].
  rewrite Hbase.
  destruct (grab_NewRequest _) as [err|req]; run; [apply IH|].
  destruct (pkg_Checksum p) as [err|sum]; run; [apply IH|].
  destruct (hex_DecodeString sum) as [err|b]; run; apply IH.
Qed.

(** X15: a missing package whose URL parses and whose checksum can be
    read gets its request exactly when the checksum is an even number
    of hexadecimal digits; the request then carries one byte, below
    256, for every two digits. *)
Theorem request_needs_hex_checksum c dir missing k p sum w :
  missing !! k = Some p →
  url_Parse (urljoin (BaseURL c) (LocationHref p)) = None →
  pkg_Checksum p = inr sum →
  ∃ reqs lines,
    schedule_jobs c dir (length missing) 0 missing [] w = (Done reqs, log_append lines w) ∧
    (length (filter (λ r, req_Label r = JobLabel (k + 1) (length missing) p) reqs) = 1%nat ↔
     Nat.Even (String.length sum) ∧ Forall is_hex (list_ascii_of_string sum)) ∧
    ∀ req, req ∈ reqs → req_Label req = JobLabel (k + 1) (length missing) p →
      ∃ b, req_Checksum req = Some (ChecksumType p, b) ∧
           String.length sum = (2 * length b)%nat ∧
           Forall (λ byte, 0 ≤ byte < 256) b.
Proof.
  intros Hk Hurl Hsum.
  eexists _, _. split; [apply schedule_jobs_spec|]. simpl.
  pose proof (hex_Decode_spec (list_ascii_of_string sum)) as Hspec.
  fold (hex_DecodeString sum) in Hspec. rewrite <- string_length_list in Hspec.
  split.
  - pose proof (jobs_label_count c dir (length missing) 0 missing k p Hk) as Hcount.
    simpl in Hcount. rewrite Hcount.
    unfold job_of, grab_NewRequest. rewrite Hurl, Hsum.
    destruct (hex_DecodeString sum) as [err|b].
    + split; [done|]. intros Hok. by destruct Hspec.
    + split; [|done]. intros _. destruct Hspec as (Hlen & Hhex & _).
      split; [by exists (length b)|done].
  - intros req Hreq Hl.
    apply rights_jobs_of_elem in Hreq as (k' & p' & Hk' & Hjob).
    apply job_of_request in Hjob as (Hl' & _ & _ & sum' & b & Hsum' & Hb & Hc).
    rewrite Hl' in Hl. injection Hl as _ ->.
    assert (sum' = sum) as -> by congruence.
    rewrite Hb in Hspec. destruct Hspec as (Hlen & _ & Hbytes).
    by exists b.
Qed.

End Requests.

(** *** More on the outcomes and on the index *)

Lemma os_Remove_fs path w r w' :
  os_Remove path w = (r, w') →
  w_log w' = w_log w ∧ w_open w' = w_open w ∧
  w_index w' = w_index w ∧ w_index_closed w' = w_index_closed w ∧
  (∀ path', path' ≠ path → fs_lookup (w_fs w') path' = fs_lookup (w_fs w) path') ∧
  (∀ path' f, fs_lookup (w_fs w') path' = Some f → fs_lookup (w_fs w) path' = Some f).
Proof.
  unfold os_Remove, fs_lookup. destruct path as [d n]; simpl.
  destruct (w_fs w !! d) as [entries|] eqn:Hd; [|by intros [= <- <-]].
  destruct (entries !! n) as [f0|] eqn:Hn; [|by intros [= <- <-]].
  destruct (f_immutable f0); [by intros [= <- <-]|].
  intros [= <- <-]. simpl. do 4 (split; [done|]). split.
  - intros [d' n'] Hne. simpl. destruct (decide (d = d')) as [<-|Hdd].
    + rewrite lookup_insert_eq, Hd. simpl. apply lookup_delete_ne. congruence.
    + by rewrite lookup_insert_ne.
  - intros [d' n'] f. simpl. destruct (decide (d = d')) as [<-|Hdd].
    + rewrite lookup_insert_eq, Hd. simpl. destruct (decide (n = n')) as [<-|Hnn].
      * by rewrite lookup_delete_eq.
      * by rewrite lookup_delete_ne.
    + by rewrite lookup_insert_ne.
Qed.

Lemma close_all_open deferred rest w :
  w_open w = (of_name <$> deferred) ++ rest →
  w_open (close_all deferred w) = rest ∧
  w_fs (close_all deferred w) = w_fs w ∧
  w_log (close_all deferred w) = w_log w ∧
  w_index (close_all deferred w) = w_index w ∧
  w_index_closed (close_all deferred w) = w_index_closed w.
Proof.
  revert w. induction deferred as [|f deferred IH]; intros w Hopen; [done|].
  unfold close_all. simpl. fold (close_all deferred (os_Close f w)).
  destruct (IH (os_Close f w)) as (H1 & H2 & H3 & H4 & H5).
  - unfold os_Close. simpl. rewrite Hopen. simpl. by rewrite decide_True.
  - by rewrite H1, H2, H3, H4, H5.
Qed.

Section MoreOutcomes.
Context `{env : Env}.

(** What one turn of the loop over the outcomes does to the world. *)
Lemma handle_response_effect c keyring resp w :
  ∃ f w',
    handle_response c keyring resp w = (Done f, w') ∧
    w_open w' = (of_name <$> push_deferred f []) ++ w_open w ∧
    w_index w' = w_index w ∧ w_index_closed w' = w_index_closed w ∧
    (∀ path, path ≠ resp_Filename resp → fs_lookup (w_fs w') path = fs_lookup (w_fs w) path) ∧
    (∀ path file, fs_lookup (w_fs w') path = Some file → fs_lookup (w_fs w) path = Some file).
Proof.
  unfold handle_response.
  destruct (resp_Error resp); run; [by eexists _, _|].
  destruct (GPGCheck c); run; [|by eexists _, _].
  unfold os_Open. destruct (fs_lookup (w_fs w) (resp_Filename resp)) as [file|]; run;
    [|by eexists _, _].
  destruct (f_readable file); run; [|by eexists _, _].
  destruct (rpm_GPGCheck _ keyring); run; [|by eexists _, _].
  match goal with |- context [os_Remove ?p ?w0] =>
    destruct (os_Remove p w0) as [r w1] eqn:Hrm end.
  apply os_Remove_fs in Hrm as (Hlog & Hopen & Hi & Hc & Hother & Hsub).
  destruct r; run; eexists _, _; (split; [done|]); simpl; rewrite Hopen; simpl;
    split_and!; try done.
Qed.

Lemma handle_responses_effect c keyring responses deferred w :
  ∃ new w',
    handle_responses c keyring responses deferred w = (Done (new ++ deferred), w') ∧
    w_open w' = (of_name <$> new) ++ w_open w ∧
    (length new ≤ length responses)%nat ∧
    w_index w' = w_index w ∧ w_index_closed w' = w_index_closed w ∧
    (∀ path, path ∉ resp_Filename <$> responses →
       fs_lookup (w_fs w') path = fs_lookup (w_fs w) path) ∧
    (∀ path file, fs_lookup (w_fs w') path = Some file → fs_lookup (w_fs w) path = Some file).
Proof.
  revert deferred w. induction responses as [|resp responses IH]; intros deferred w.
  - by exists [], w.
  - cbn [handle_responses].
    destruct (handle_response_effect c keyring resp w)
      as (f & w1 & Hrun & Hopen & Hi & Hc & Hother & Hsub).
    unfold bind. rewrite Hrun.
    destruct (IH (push_deferred f deferred) w1)
      as (new & w' & Hrun' & Hopen' & Hlen & Hi' & Hc' & Hother' & Hsub').
    exists (new ++ push_deferred f []), w'. split.
    { rewrite Hrun'. f_equal. f_equal. rewrite <- app_assoc. by destruct f. }
    split. { rewrite Hopen', Hopen, fmap_app. by rewrite <- app_assoc. }
    split. { rewrite length_app. destruct f; simpl; lia. }
    split; [congruence|]. split; [congruence|]. split.
    + intros path Hnot. rewrite Hother', Hother; [done| |].
      * intros ->. apply Hnot. rewrite fmap_cons. left.
      * intros Hin. apply Hnot. rewrite fmap_cons. by right.
    + intros path file Hf. by apply Hsub, Hsub'.
Qed.

(** X16: with the signature check on, an artifact that was downloaded
    without error, can be opened and passes the check is left as it is:
    nothing is logged, no file changes; the file stays open, its close
    being deferred. *)
Theorem verified_artifact_is_kept c keyring resp f w :
  resp_Error resp = None →
  GPGCheck c = true →
  fs_lookup (w_fs w) (resp_Filename resp) = Some f →
  f_readable f = true →
  rpm_GPGCheck {| of_name := resp_Filename resp; of_file := f |} keyring = None →
  handle_response c keyring resp w
  = (Done (Some {| of_name := resp_Filename resp; of_file := f |}),
     set_open (resp_Filename resp :: w_open w) w).
Proof.
  intros Hok Hgpg Hf Hread Hsig. unfold handle_response. rewrite Hok, Hgpg. run.
  unfold os_Open. rewrite Hf, Hread. by rewrite Hsig.
Qed.

(** X17: with the signature check on, an artifact that was downloaded
    without error but cannot be opened, because it is not there or may
    not be read, is reported with one error line and is not checked:
    the signature verifier is not asked, nothing is removed, and a file
    that is there stays there. *)
Theorem unreadable_artifact_is_not_checked c keyring resp w :
  resp_Error resp = None →
  GPGCheck c = true →
  (fs_lookup (w_fs w) (resp_Filename resp) = None ∨
   ∃ f, fs_lookup (w_fs w) (resp_Filename resp) = Some f ∧ f_readable f = false) →
  ∃ err,
    handle_response c keyring resp w
    = (Done None,
       log_append [LogError (Some err) (MsgGPGReadError (req_Label (resp_Request resp)))] w).
Proof.
  intros Hok Hgpg Hf. unfold handle_response. rewrite Hok, Hgpg. run. unfold os_Open.
  destruct Hf as [->|(f & -> & ->)]; by eexists.
Qed.

(** X18: every file opened in the loop over the outcomes stays open
    until [Sync] returns: after the loop the open files are those of the
    deferred closes, at most one for each outcome, on top of the ones
    open before; and the deferred closes leave the open files as they
    were before the loop, touching nothing else. *)
Theorem opened_files_are_closed_at_return c keyring responses w :
  ∃ deferred w',
    handle_responses c keyring responses [] w = (Done deferred, w') ∧
    w_open w' = (of_name <$> deferred) ++ w_open w ∧
    (length deferred ≤ length responses)%nat ∧
    w_open (close_all deferred w') = w_open w ∧
    w_fs (close_all deferred w') = w_fs w' ∧
    w_log (close_all deferred w') = w_log w'.
Proof.
  destruct (handle_responses_effect c keyring responses [] w)
    as (new & w' & Hrun & Hopen & Hlen & _).
  rewrite app_nil_r in Hrun. exists new, w'.
  destruct (close_all_open new (w_open w) w' Hopen) as (H1 & H2 & H3 & _).
  by split_and!.
Qed.

(** X19: the loop over the outcomes never makes a file and never
    changes one; it removes nothing but destinations of the outcomes it
    handles: every other path holds after the loop what it held
    before. *)
Theorem verification_touches_only_downloads c keyring responses deferred w :
  ∃ deferred' w',
    handle_responses c keyring responses deferred w = (Done deferred', w') ∧
    (∀ path, path ∉ resp_Filename <$> responses →
       fs_lookup (w_fs w') path = fs_lookup (w_fs w) path) ∧
    (∀ path file, fs_lookup (w_fs w') path = Some file → fs_lookup (w_fs w) path = Some file) ∧
    w_index w' = w_index w.
Proof.
  destruct (handle_responses_effect c keyring responses deferred w)
    as (new & w' & Hrun & _ & _ & Hi & _ & Hother & Hsub).
  by exists (new ++ deferred), w'.
Qed.

(** X20: with the signature check off, the loop over the outcomes only
    logs the failed downloads, one line each in the order the outcomes
    come; it opens no file and defers no close. *)
Theorem unchecked_outcomes_are_only_logged c keyring responses deferred w :
  GPGCheck c = false →
  handle_responses c keyring responses deferred w
  = (Done deferred, log_append (download_error_lines responses) w).
Proof.
  intros Hgpg. revert w. induction responses as [|resp responses IH]; intros w; simpl.
  - unfold download_error_lines. simpl. by rewrite log_append_nil.
  - unfold bind, handle_response. rewrite Hgpg.
    unfold download_error_lines. csimpl.
    destruct (resp_Error resp) as [err|]; run.
    + rewrite IH. unfold download_error_lines. by rewrite add_log_append, log_append_app.
    + by rewrite IH.
Qed.

Lemma add_packages_closed wr files w :
  w_index_closed (add_packages wr files w).2 = w_index_closed w.
Proof.
  revert w. induction files as [|f files IH]; intros w; simpl; [done|].
  run. destruct (rpm_OpenPackageFile f w) as [p [err|]]; simpl; [done|].
  by rewrite IH.
Qed.

(** X21: once [createrepo] has given the index writer, the writer is
    closed when [Sync_mirror] is left, whether the index was completed
    or a file that did not parse made it panic; when [createrepo] fails
    there is no writer: the panic carries its error, and nothing was
    listed, written or closed. *)
Theorem index_writer_is_closed dir w :
  (∀ wr w1 deferred,
     createrepo (filepath_Join dir "/repodata") w = (inr wr, w1) →
     w_index_closed (rebuild_index dir w).2 = true ∧
     w_index_closed (defer (close_all deferred) (rebuild_index dir) w).2 = true) ∧
  (∀ err w1,
     createrepo (filepath_Join dir "/repodata") w = (inl err, w1) →
     rebuild_index dir w = (Panic err, w1)).
Proof.
  split.
  - intros wr w1 deferred Hc.
    destruct (filepath_Glob_rpm dir w1) as (paths & Hg & _).
    assert (Hclosed : w_index_closed (rebuild_index dir w).2 = true).
    { rewrite (rebuild_index_run dir w wr w1 paths Hc Hg). unfold defer.
      by destruct (add_packages wr paths _). }
    split; [done|]. unfold defer. destruct (rebuild_index dir w) as [r w2]. simpl in *.
    clear -Hclosed. revert w2 Hclosed.
    induction deferred as [|f deferred IH]; intros w2 Hclosed; [done|].
    unfold close_all. simpl. by apply IH.
  - intros err w1 Hc. unfold rebuild_index. run. by rewrite Hc.
Qed.

End MoreOutcomes.

(** * The further properties on the small environment *)

Lemma Sync_load_success_witness :
  "pkgs" ≠ "" ∧
  NoDup (fi_Name <$> demo_files) ∧
  (∃ kr, Some {| kr_id := "key" |} = Some kr ∧
         OpenKeyRing (GPGKey (demo_repo true "key")) (w_fs demo_world) = inr kr) ∧
  ∃ repocache w1 primarydb w2 w3 w4,
    CacheLocal (demo_repo true "key") "cache" demo_world = (Done repocache, w1) ∧
    PrimaryDB repocache w1 = (inr primarydb, w2) ∧
    ioutil_ReadDir "pkgs" w3 = inr demo_files ∧
    Packages primarydb (log_append [LogDebug MsgLoadingMetadata] w3)
    = (inr demo_catalog, w4).
Proof.
  destruct (Sync_load_success (demo_repo true "key") "cache" "pkgs" demo_world
              (Some {| kr_id := "key" |}) demo_files demo_catalog
              (Sync_load (demo_repo true "key") "cache" "pkgs" demo_world).2)
    as (Hdir & _ & Hkey & Hnd & rc & w1 & db & w2 & w3 & cat & w4
        & Hc & Hdb & _ & Hr & Hp & Hps & _).
  - vm_compute. reflexivity.
  - split; [exact Hdir|]. split; [exact Hnd|]. split; [apply Hkey; reflexivity|].
    exists rc, w1, db, w2, w3, w4. split; [exact Hc|]. split; [exact Hdb|].
    split; [exact Hr|]. rewrite Hps. exact Hp.
Defined.

Lemma Sync_error_forms_witness :
  (GPGCheck (demo_repo true "") = true ∧
   OpenKeyRing (GPGKey (demo_repo true "")) (w_fs demo_world) = inl (ErrOther "no key file")) ∨
  (∃ err, ErrOther "no key file" = ErrCacheMetadata (ID (demo_repo true "")) err ∧
          (CacheLocal (demo_repo true "") "cache" demo_world).1 = Fail err) ∨
  (∃ repocache w1 w2, PrimaryDB repocache w1 = (inl (ErrOther "no key file"), w2)) ∨
  (∃ err w2 w3, ErrOther "no key file" = ErrCreatePath "pkgs" err ∧ os_IsExist err = false ∧
                os_MkdirAll "pkgs" w2 = (Some err, w3)) ∨
  ErrOther "no key file" = ErrReadingPackages ∨
  (∃ err primarydb w3 w4, ErrOther "no key file" = ErrPrimaryDb err ∧
                          Packages primarydb w3 = (inl err, w4)).
Proof.
  apply (Sync_error_forms (demo_repo true "") "cache" "pkgs" demo_world
           (ErrOther "no key file")).
  vm_compute. reflexivity.
Defined.

Lemma incomplete_file_is_scheduled_witness :
  search_local_files demo_longer_a "a.rpm" (mkPath "pkgs" "a.rpm") demo_files demo_world
  = (Done false, log_append [LogDebug (MsgIncomplete demo_longer_a)] demo_world) ∧
  missing_of "pkgs" demo_files ([demo_a] ++ demo_longer_a :: [demo_big]) demo_world
  = missing_of "pkgs" demo_files [demo_a] demo_world
    ++ demo_longer_a :: missing_of "pkgs" demo_files [demo_big] demo_world.
Proof.
  destruct (incomplete_file_is_scheduled "pkgs" demo_files demo_longer_a
              {| fi_Name := "a.rpm"; fi_Size := 4 |} demo_world) as (Hsearch & Hmissing).
  - decided.
  - decided.
  - reflexivity.
  - simpl. lia.
  - split; [exact Hsearch|apply Hmissing].
Defined.

Lemma unmatched_catalog_is_all_missing_witness :
  build_missing "pkgs" demo_files [demo_odd] [] 0 demo_world
  = (Done ([demo_odd], uint64 (sizes_sum [demo_odd])), demo_world).
Proof.
  apply (unmatched_catalog_is_all_missing "pkgs" demo_files [demo_odd] demo_world).
  intros p fi Hp Hfi. apply list_elem_of_singleton in Hp as ->.
  repeat (apply elem_of_cons in Hfi as [->|Hfi]); [discriminate..|].
  by apply elem_of_nil in Hfi.
Defined.

Lemma valid_mirror_fetches_nothing_witness :
  Sync_fetch (demo_repo false "") "pkgs" None demo_files [demo_a] demo_world
  = (Done [],
     log_append [LogDebug (MsgChecking "pkgs"); LogDebug (MsgScheduled 0 0)] demo_world).
Proof.
  apply (valid_mirror_fetches_nothing (demo_repo false "") "pkgs" None demo_files
           [demo_a] demo_world).
  - decided.
  - intros p Hp. apply list_elem_of_singleton in Hp as ->.
    exists {| fi_Name := "a.rpm"; fi_Size := 4 |}, "aa".
    split; [decided|]. repeat split; vm_compute; reflexivity.
Defined.

Lemma requests_depend_on_BaseURL_only_witness :
  schedule_jobs (demo_repo false "") "pkgs" 3 0 demo_catalog [] demo_world
  = schedule_jobs demo_repo_mirrored "pkgs" 3 0 demo_catalog [] demo_world.
Proof.
  apply (requests_depend_on_BaseURL_only (demo_repo false "") demo_repo_mirrored
           "pkgs" 3 0 demo_catalog [] demo_world).
  reflexivity.
Defined.

Lemma request_needs_hex_checksum_witness :
  ∃ reqs lines,
    schedule_jobs (demo_repo false "") "pkgs" 2 0 [demo_big; demo_odd] [] demo_world
    = (Done reqs, log_append lines demo_world) ∧
    (length (filter (λ r, req_Label r = JobLabel 2 2 demo_odd) reqs) = 1%nat ↔
     Nat.Even (String.length "xyz") ∧ Forall is_hex (list_ascii_of_string "xyz")).
Proof.
  destruct (request_needs_hex_checksum (demo_repo false "") "pkgs" [demo_big; demo_odd]
              1%nat demo_odd "xyz" demo_world) as (reqs & lines & Hrun & Hiff & _).
  - reflexivity.
  - reflexivity.
  - reflexivity.
  - exists reqs, lines. split; [exact Hrun|exact Hiff].
Defined.

Lemma verified_artifact_is_kept_witness :
  handle_response (demo_repo true "key") (Some {| kr_id := "key" |})
    (demo_response demo_a "s.rpm" None) demo_world_signed
  = (Done (Some {| of_name := mkPath "pkgs" "s.rpm"; of_file := demo_file "signed" |}),
     set_open [mkPath "pkgs" "s.rpm"] demo_world_signed).
Proof.
  apply (verified_artifact_is_kept (demo_repo true "key") (Some {| kr_id := "key" |})
           (demo_response demo_a "s.rpm" None) (demo_file "signed") demo_world_signed).
  - reflexivity.
  - reflexivity.
  - vm_compute. reflexivity.
  - reflexivity.
  - reflexivity.
Defined.

Lemma unreadable_artifact_is_not_checked_witness :
  ∃ err,
    handle_response (demo_repo true "key") (Some {| kr_id := "key" |})
      (demo_response demo_a "locked.rpm" None) demo_world_signed
    = (Done None,
       log_append [LogError (Some err) (MsgGPGReadError (JobLabel 1 1 demo_a))]
         demo_world_signed).
Proof.
  apply (unreadable_artifact_is_not_checked (demo_repo true "key")
           (Some {| kr_id := "key" |}) (demo_response demo_a "locked.rpm" None)
           demo_world_signed).
  - reflexivity.
  - reflexivity.
  - right. eexists. split; [vm_compute; reflexivity|reflexivity].
Defined.

Lemma unchecked_outcomes_are_only_logged_witness :
  handle_responses (demo_repo false "") None
    [ demo_response demo_a "s.rpm" None;
      demo_response demo_big "big.rpm" (Some (ErrOther "connection reset")) ] []
    demo_world_signed
  = (Done [],
     log_append
       [LogError (Some (ErrOther "connection reset")) (MsgDownloadError (JobLabel 1 1 demo_big))]
       demo_world_signed).
Proof.
  apply (unchecked_outcomes_are_only_logged (demo_repo false "") None
           [ demo_response demo_a "s.rpm" None;
             demo_response demo_big "big.rpm" (Some (ErrOther "connection reset")) ] []
           demo_world_signed).
  reflexivity.
Defined.
